(** * The query lifecycle tracker of apollo-client ([src/queries/store.ts])

    A shallow embedding of the class [QueryStore] and the properties of its
    operations.

    Modelling conventions.
    - The private field [store : {[queryId: string]: QueryStoreValue}] is a
      plain object.  Its own properties are a finite map from strings to
      records, [gmap string QueryStoreValue]; besides them [this.store[k]]
      finds the properties the object inherits from [Object.prototype]
      ([constructor], [toString], ...), which the parameter [inherited]
      names.
    - Every method is a computation in a state-and-exception monad over that
      map.  A JavaScript [throw] keeps the mutations made before it, so a
      computation returns its completion together with the store it leaves.
    - Assigning to a property of [undefined] raises a [TypeError]; the
      assignments [this.store[k].f = v] are modelled by [assign], which
      raises it when [k] is neither a record nor an inherited name.
    - The types of the [graphql] package and the helpers imported from
      [../util/isEqual] and [../data/storeUtils] are parameters. *)

From stdpp Require Import gmap strings list fin_maps.

(** Modelled from the spec: the enumeration [NetworkStatus] of
    [src/queries/networkStatus.ts], which is imported by [store.ts]; the
    statuses are mutually exclusive and these seven are all there are. *)
Inductive NetworkStatus : Type :=
  | loading
  | setVariables
  | fetchMore
  | refetch
  | poll
  | ready
  | error.

#[global] Instance NetworkStatus_eq_dec : EqDecision NetworkStatus.
Proof. solve_decision. Defined.

(** What a method can throw: the [Error] built in [initQuery], with its
    message, and the [TypeError] of a property access on [undefined]. *)
Inductive Exception : Type :=
  | InternalError (message : string)
  | TypeError.

Inductive Completion (A : Type) : Type :=
  | Return (a : A)
  | Throw (e : Exception).
Arguments Return {A} a.
Arguments Throw {A} e.

Section QueryStore.

(** [DocumentNode], [Object] (the variables), [Error], [GraphQLError] and
    [any] (the metadata). *)
Context {DocumentNode Object Error GraphQLError Any : Type}.

(** The names of the properties that the store, an object made by [{}],
    inherits from [Object.prototype].  Their values are objects, the
    functions of [Object.prototype]: they are truthy, they have no
    [queryString], and an assignment to one of their properties succeeds
    and changes neither the records of the store nor the names it
    inherits.  (An assignment through [__proto__], whose value is
    [Object.prototype] itself, adds to the inherited names; the model
    keeps [inherited] fixed and does not follow it.) *)
Context (inherited : string → bool).

(** [isEqual] of [../util/isEqual]: deep, order-insensitive equality. *)
Context (isEqual : Object → Object → bool).

(** [ExecutionResult] of [graphql]: the optional [errors] array is all the
    tracker reads of it. *)
Record ExecutionResult : Type := {
  data : option Any;
  errors : option (list GraphQLError);
}.

(** [graphQLResultHasError] of [../data/storeUtils]. *)
Context (graphQLResultHasError : ExecutionResult → bool).

Record QueryStoreValue : Type := {
  queryString : string;
  document : DocumentNode;
  variables : Object;
  previousVariables : option Object;
  networkStatus : NetworkStatus;
  networkError : option Error;
  graphQLErrors : list GraphQLError;
  metadata : Any;
}.

(** Field assignments [r.f = v]. *)
Definition set_previousVariables (v : option Object) (r : QueryStoreValue) :=
  {| queryString := queryString r; document := document r;
     variables := variables r; previousVariables := v;
     networkStatus := networkStatus r; networkError := networkError r;
     graphQLErrors := graphQLErrors r; metadata := metadata r |}.

Definition set_networkStatus (v : NetworkStatus) (r : QueryStoreValue) :=
  {| queryString := queryString r; document := document r;
     variables := variables r; previousVariables := previousVariables r;
     networkStatus := v; networkError := networkError r;
     graphQLErrors := graphQLErrors r; metadata := metadata r |}.

Definition set_networkError (v : option Error) (r : QueryStoreValue) :=
  {| queryString := queryString r; document := document r;
     variables := variables r; previousVariables := previousVariables r;
     networkStatus := networkStatus r; networkError := v;
     graphQLErrors := graphQLErrors r; metadata := metadata r |}.

Definition set_graphQLErrors (v : list GraphQLError) (r : QueryStoreValue) :=
  {| queryString := queryString r; document := document r;
     variables := variables r; previousVariables := previousVariables r;
     networkStatus := networkStatus r; networkError := networkError r;
     graphQLErrors := v; metadata := metadata r |}.

(** ** The monad of the methods *)

Definition M (A : Type) : Type :=
  gmap string QueryStoreValue → Completion A * gmap string QueryStoreValue.

Definition ret {A : Type} (a : A) : M A := λ st, (Return a, st).

Definition bind {A B : Type} (m : M A) (k : A → M B) : M B :=
  λ st, match m st with
        | (Return a, st') => k a st'
        | (Throw e, st') => (Throw e, st')
        end.

Definition throw {A : Type} (e : Exception) : M A := λ st, (Throw e, st).

#[global] Instance M_ret : MRet M := @ret.
#[global] Instance M_bind : MBind M := λ A B k m, bind m k.

(** The value of [this.store[k]]: a record of the store, an object
    inherited from [Object.prototype], or [undefined]. *)
Inductive Property : Type :=
  | Own (r : QueryStoreValue)
  | Inherited
  | Undefined.

Definition property (st : gmap string QueryStoreValue) (k : string)
  : Property :=
  match st !! k with
  | Some r => Own r
  | None => if inherited k then Inherited else Undefined
  end.

(** [this.store[k]] *)
Definition read (k : string) : M Property :=
  λ st, (Return (property st k), st).

(** [this.store[k] = r] *)
Definition write (k : string) (r : QueryStoreValue) : M unit :=
  λ st, (Return (), <[k := r]> st).

(** [this.store[k].f = v], with [f = v] as the record update [upd]: on
    a record it updates the record, on an inherited object it sets a
    property of that object and leaves the store as it is, and on
    [undefined] it throws. *)
Definition assign (k : string) (upd : QueryStoreValue → QueryStoreValue) : M unit :=
  λ st, match property st k with
        | Own r => (Return (), <[k := upd r]> st)
        | Inherited => (Return (), st)
        | Undefined => (Throw TypeError, st)
        end.

(** [delete this.store[k]] *)
Definition remove (k : string) : M unit :=
  λ st, (Return (), delete k st).

(** [Object.keys(this.store)].  The order of the keys is the map's, not
    JavaScript's; [reset] visits each key once and its result does not
    depend on the order. *)
Definition keys : M (list string) :=
  λ st, (Return (map_to_list st).*1, st).

(** [l.forEach(f)] *)
Fixpoint forEach {A : Type} (l : list A) (f : A → M unit) : M unit :=
  match l with
  | [] => ret ()
  | x :: l' => f x;; forEach l' f
  end.

(** [l.indexOf(x)], from position [i] on *)
Fixpoint indexOf_from (i : Z) (l : list string) (x : string) : Z :=
  match l with
  | [] => -1
  | y :: l' => if String.eqb y x then i else indexOf_from (i + 1) l' x
  end.

Definition indexOf (l : list string) (x : string) : Z := indexOf_from 0 l x.

(** ** The methods of [QueryStore] *)

Definition get (st : gmap string QueryStoreValue) (queryId : string)
  : Property :=
  property st queryId.

Definition InternalErrorMessage : string :=
  "Internal Error: may not update existing query string in store".

Definition initQuery (queryId queryString' : string) (document' : DocumentNode)
    (storePreviousVariables : bool) (variables' : Object)
    (isPoll isRefetch : bool) (metadata' : Any)
    (fetchMoreForQueryId : option string) : M unit :=
  previousQuery ← read queryId;
  match previousQuery with
  | Own p =>
      if negb (String.eqb (queryString p) queryString')
      then throw (InternalError InternalErrorMessage)
      else ret ()
  | Inherited =>
      (* [previousQuery.queryString] is [undefined], which is not
         [queryString] *)
      throw (InternalError InternalErrorMessage)
  | Undefined => ret ()
  end;;
  let '(isSetVariables, previousVariables') :=
    match previousQuery with
    | Own p =>
        if storePreviousVariables
           && negb (bool_decide (networkStatus p = loading))
        then
          if negb (isEqual (variables p) variables')
          then (true, Some (variables p))
          else (false, None)
        else (false, None)
    | Inherited => (false, None) (* not reached: the guard has thrown *)
    | Undefined => (false, None)
    end in
  let newNetworkStatus :=
    if isSetVariables then setVariables
    else if isPoll then poll
    else if isRefetch then refetch
    else if isPoll then poll
    else loading in
  write queryId
    {| queryString := queryString';
       document := document';
       variables := variables';
       previousVariables := previousVariables';
       networkError := None;
       graphQLErrors := [];
       networkStatus := newNetworkStatus;
       metadata := metadata' |};;
  match fetchMoreForQueryId with
  | Some linked => assign linked (set_networkStatus fetchMore)
  | None => ret ()
  end.

Definition markQueryResult (queryId : string) (result : ExecutionResult)
    (fetchMoreForQueryId : option string) : M unit :=
  q ← read queryId;
  match q with
  | Undefined => ret ()
  | Own _ | Inherited =>
      let resultHasGraphQLErrors := graphQLResultHasError result in
      assign queryId (set_networkError None);;
      assign queryId
        (set_graphQLErrors
           (if resultHasGraphQLErrors
            then match errors result with Some es => es | None => [] end
            else []));;
      assign queryId (set_previousVariables None);;
      assign queryId (set_networkStatus ready);;
      match fetchMoreForQueryId with
      | Some linked => assign linked (set_networkStatus ready)
      | None => ret ()
      end
  end.

Definition markQueryError (queryId : string) (err : Error)
    (fetchMoreForQueryId : option string) : M unit :=
  q ← read queryId;
  match q with
  | Undefined => ret ()
  | Own _ | Inherited =>
      assign queryId (set_networkError (Some err));;
      assign queryId (set_networkStatus error);;
      match fetchMoreForQueryId with
      | Some linked =>
          assign linked (set_networkError (Some err));;
          assign linked (set_networkStatus error)
      | None => ret ()
      end
  end.

Definition markQueryResultClient (queryId : string) (complete : bool) : M unit :=
  q ← read queryId;
  match q with
  | Undefined => ret ()
  | Own _ | Inherited =>
      assign queryId (set_networkError None);;
      assign queryId (set_previousVariables None);;
      assign queryId (set_networkStatus (if complete then ready else loading))
  end.

Definition stopQuery (queryId : string) : M unit :=
  remove queryId.

Definition reset (observableQueryIds : list string) : M unit :=
  ks ← keys;
  forEach
    (filter (λ queryId, -1 < indexOf observableQueryIds queryId)%Z ks)
    (λ key, assign key (set_networkStatus loading)).

(** ** Sequences of calls

    A client of the tracker calls its methods one after the other; a call
    that throws leaves the store as it was when the exception was raised. *)

Inductive Call : Type :=
  | InitQuery (queryId queryString' : string) (document' : DocumentNode)
      (storePreviousVariables : bool) (variables' : Object)
      (isPoll isRefetch : bool) (metadata' : Any)
      (fetchMoreForQueryId : option string)
  | MarkQueryResult (queryId : string) (result : ExecutionResult)
      (fetchMoreForQueryId : option string)
  | MarkQueryError (queryId : string) (err : Error)
      (fetchMoreForQueryId : option string)
  | MarkQueryResultClient (queryId : string) (complete : bool)
  | StopQuery (queryId : string)
  | Reset (observableQueryIds : list string).

Definition call (c : Call) : M unit :=
  match c with
  | InitQuery queryId qs d spv vs isPoll isRefetch md fm =>
      initQuery queryId qs d spv vs isPoll isRefetch md fm
  | MarkQueryResult queryId result fm => markQueryResult queryId result fm
  | MarkQueryError queryId err fm => markQueryError queryId err fm
  | MarkQueryResultClient queryId complete =>
      markQueryResultClient queryId complete
  | StopQuery queryId => stopQuery queryId
  | Reset ids => reset ids
  end.

(** The store a call leaves, returned or thrown. *)
Definition exec (st : gmap string QueryStoreValue) (c : Call)
  : gmap string QueryStoreValue :=
  (call c st).2.

Definition run (cs : list Call) (st : gmap string QueryStoreValue)
  : gmap string QueryStoreValue :=
  foldl exec st cs.

(** ** Closed forms

    What the methods compute, written as functions of the store they start
    from; the lemmas [initQuery_eq], [markQueryResult_eq] and the like prove
    that the methods above agree with them. *)

(** The guard of lines 27 to 32 of [initQuery]. *)
Definition queryStringChanged (previousQuery : Property)
    (queryString' : string) : bool :=
  match previousQuery with
  | Own p => negb (String.eqb (queryString p) queryString')
  | Inherited => true
  | Undefined => false
  end.

(** [initQuery(queryId, queryString', ...)] gets past that guard: the
    identifier has a record with the same query string, or
    [this.store[queryId]] is [undefined]. *)
Definition passes_guard (st : gmap string QueryStoreValue)
    (queryId queryString' : string) : Prop :=
  match property st queryId with
  | Own p => queryString p = queryString'
  | Inherited => False
  | Undefined => True
  end.

(** The final value of the local [isSetVariables]. *)
Definition variablesChanged (previousQuery : option QueryStoreValue)
    (storePreviousVariables : bool) (variables' : Object) : bool :=
  match previousQuery with
  | Some p =>
      storePreviousVariables
      && negb (bool_decide (networkStatus p = loading))
      && negb (isEqual (variables p) variables')
  | None => false
  end.

(** The record [initQuery] stores for [queryId]. *)
Definition initialValue (previousQuery : option QueryStoreValue)
    (queryString' : string) (document' : DocumentNode)
    (storePreviousVariables : bool) (variables' : Object)
    (isPoll isRefetch : bool) (metadata' : Any) : QueryStoreValue :=
  let changed :=
    variablesChanged previousQuery storePreviousVariables variables' in
  {| queryString := queryString';
     document := document';
     variables := variables';
     previousVariables := if changed then variables <$> previousQuery else None;
     networkError := None;
     graphQLErrors := [];
     networkStatus :=
       if changed then setVariables
       else if isPoll then poll
       else if isRefetch then refetch
       else loading;
     metadata := metadata' |}.

(** The update of the record named by [fetchMoreForQueryId]. *)
Definition propagate (fetchMoreForQueryId : option string)
    (upd : QueryStoreValue → QueryStoreValue) : M unit :=
  match fetchMoreForQueryId with
  | Some linked => assign linked upd
  | None => ret ()
  end.

(** [this.store[k]] is [undefined]. *)
Definition absent (st : gmap string QueryStoreValue) (k : string) : bool :=
  match property st k with
  | Undefined => true
  | _ => false
  end.

(** The value of [graphQLErrors] after [markQueryResult]. *)
Definition resultErrors (result : ExecutionResult) : list GraphQLError :=
  if graphQLResultHasError result
  then match errors result with Some es => es | None => [] end
  else [].

Definition resolved (result : ExecutionResult) (r : QueryStoreValue)
  : QueryStoreValue :=
  set_networkStatus ready
    (set_previousVariables None
       (set_graphQLErrors (resultErrors result) (set_networkError None r))).

Definition failed (err : Error) (r : QueryStoreValue) : QueryStoreValue :=
  set_networkStatus error (set_networkError (Some err) r).

Definition resolvedClient (complete : bool) (r : QueryStoreValue)
  : QueryStoreValue :=
  set_networkStatus (if complete then ready else loading)
    (set_previousVariables None (set_networkError None r)).

(** ** Predicates on stores and calls *)

(** Invariant 2 of the data model. *)
Definition previousVariables_only_setVariables
    (st : gmap string QueryStoreValue) : Prop :=
  ∀ k r, st !! k = Some r →
    previousVariables r ≠ None → networkStatus r = setVariables.

(** Calls that pass no [fetchMoreForQueryId] and are one of [initQuery],
    [markQueryResult], [markQueryResultClient] and [stopQuery]. *)
Definition unlinked (c : Call) : bool :=
  match c with
  | InitQuery _ _ _ _ _ _ _ _ None => true
  | MarkQueryResult _ _ None => true
  | MarkQueryResultClient _ _ => true
  | StopQuery _ => true
  | _ => false
  end.

(** [c] is a call of [initQuery] whose [fetchMoreForQueryId] is [k]. *)
Definition initQuery_linking (k : string) (c : Call) : bool :=
  match c with
  | InitQuery _ _ _ _ _ _ _ _ (Some linked) => bool_decide (linked = k)
  | _ => false
  end.

(** The identifiers whose records a call assigns to or deletes. *)
Definition targets (c : Call) : list string :=
  match c with
  | InitQuery queryId _ _ _ _ _ _ _ fm => queryId :: option_list fm
  | MarkQueryResult queryId _ fm => queryId :: option_list fm
  | MarkQueryError queryId _ fm => queryId :: option_list fm
  | MarkQueryResultClient queryId _ => [queryId]
  | StopQuery queryId => [queryId]
  | Reset ids => ids
  end.

(** [c] is the call [stopQuery(k)]. *)
Definition stops (k : string) (c : Call) : bool :=
  match c with
  | StopQuery queryId => bool_decide (queryId = k)
  | _ => false
  end.

(** [c] is a call of [initQuery] for the identifier [k]. *)
Definition initialises (k : string) (c : Call) : bool :=
  match c with
  | InitQuery queryId _ _ _ _ _ _ _ _ => bool_decide (queryId = k)
  | _ => false
  end.

(** What the fields of a record tell of its status, whatever calls made
    it: a record in status [error] has a [networkError], a record in
    status [setVariables] has [previousVariables], and a record in one of
    the statuses [setVariables], [poll] and [refetch] has no errors. *)
Definition coherent (r : QueryStoreValue) : Prop :=
  (networkStatus r = error → is_Some (networkError r))
  ∧ (networkStatus r = setVariables → is_Some (previousVariables r))
  ∧ (networkStatus r ∈ [setVariables; poll; refetch] →
       networkError r = None ∧ graphQLErrors r = []).


(** The identifiers a call looks up to decide whether it throws. *)
Definition lookups (c : Call) : list string :=
  match c with
  | InitQuery queryId _ _ _ _ _ _ _ fm => queryId :: option_list fm
  | MarkQueryResult queryId _ fm => queryId :: option_list fm
  | MarkQueryError queryId _ fm => queryId :: option_list fm
  | MarkQueryResultClient _ _ | StopQuery _ | Reset _ => []
  end.

(** What a call that looks up no inherited name needs of the store to
    return rather than throw: [initQuery] a query string that agrees with
    the record of [queryId], if there is one, and a [fetchMoreForQueryId]
    that is [queryId] or is tracked; [markQueryResult] and
    [markQueryError], on a tracked identifier, a [fetchMoreForQueryId]
    that is tracked; the other methods nothing. *)
Definition precondition (st : gmap string QueryStoreValue) (c : Call)
  : Prop :=
  match c with
  | InitQuery queryId qs _ _ _ _ _ _ fm =>
      (∀ p, st !! queryId = Some p → queryString p = qs)
      ∧ (∀ linked, fm = Some linked →
           linked = queryId ∨ is_Some (st !! linked))
  | MarkQueryResult queryId _ fm | MarkQueryError queryId _ fm =>
      is_Some (st !! queryId) →
      ∀ linked, fm = Some linked → is_Some (st !! linked)
  | MarkQueryResultClient _ _ | StopQuery _ | Reset _ => True
  end.


End QueryStore.

Arguments ExecutionResult : clear implicits.
Arguments QueryStoreValue : clear implicits.
Arguments M : clear implicits.
Arguments Call : clear implicits.
Arguments previousVariables_only_setVariables {_ _ _ _ _} st.

(** ** A concrete instance for the examples

    Documents, errors and result errors are strings, the metadata is [()],
    and the variables are flat objects: the list of their properties. *)

Abbreviation ExampleValue :=
  (QueryStoreValue string (list (string * Z)) string string unit).
Abbreviation ExampleCall :=
  (Call string (list (string * Z)) string string unit).

(** Modelled from the spec: [isEqual] of [src/util/isEqual.ts], deep and
    order-insensitive equality, on flat objects: each property of one is a
    property of the other. *)
Definition isEqual_flat (a b : list (string * Z)) : bool :=
  forallb (λ kv, bool_decide (kv ∈ b)) a
  && forallb (λ kv, bool_decide (kv ∈ a)) b.

(** An instance of [graphQLResultHasError]: the result has a non-empty
    [errors] array. *)
Definition hasErrors_nonempty (result : ExecutionResult string unit) : bool :=
  match errors result with
  | Some (_ :: _) => true
  | _ => false
  end.

Definition x1 : list (string * Z) := [("x", 1%Z)].
Definition x2 : list (string * Z) := [("x", 2%Z)].

(** [q1] fetched with [{x: 1}] and settled. *)
Definition q1_ready : ExampleValue :=
  {| queryString := "query A"; document := "A"; variables := x1;
     previousVariables := None; networkStatus := ready;
     networkError := None; graphQLErrors := []; metadata := () |}.

Definition q2_ready : ExampleValue :=
  {| queryString := "query B"; document := "B"; variables := [];
     previousVariables := None; networkStatus := ready;
     networkError := None; graphQLErrors := []; metadata := () |}.

Definition store1 : gmap string ExampleValue := {[ "q1" := q1_ready ]}.
Definition store12 : gmap string ExampleValue :=
  <[ "q2" := q2_ready ]> store1.

Definition ok_result : ExecutionResult string unit :=
  {| data := Some (); errors := None |}.
Definition partial_result : ExecutionResult string unit :=
  {| data := Some (); errors := Some ["e1"; "e2"] |}.

(** Fetch [q1], settle it, change its variables, then reset it. *)
Definition setVariables_then_reset : list ExampleCall :=
  [ InitQuery "q1" "query A" "A" false x1 false false () None;
    MarkQueryResult "q1" ok_result None;
    InitQuery "q1" "query A" "A" true x2 false false () None;
    Reset ["q1"] ].

(** Fetch [q1], then fetch more of it under the identifier [q3]. *)
Definition fetchMore_of_q1 : list ExampleCall :=
  [ InitQuery "q1" "query A" "A" false x1 false false () None;
    MarkQueryResult "q1" ok_result None;
    InitQuery "q3" "query A" "A" false x2 false false () (Some "q1") ].

(** Fetch [q1], settle it, change its variables, then fail. *)
Definition setVariables_then_error : list ExampleCall :=
  [ InitQuery "q1" "query A" "A" false x1 false false () None;
    MarkQueryResult "q1" ok_result None;
    InitQuery "q1" "query A" "A" true x2 false false () None;
    MarkQueryError "q1" "offline" None ].

(** [q1] failed while its variables were being changed, with the errors
    of an earlier partial result still in place. *)
Definition q1_failed : ExampleValue :=
  {| queryString := "query A"; document := "A"; variables := x2;
     previousVariables := Some x1; networkStatus := error;
     networkError := Some "offline"; graphQLErrors := ["e1"];
     metadata := () |}.

Definition store1_failed : gmap string ExampleValue :=
  {[ "q1" := q1_failed ]}.


(** The names of the properties of [Object.prototype]. *)
Definition Object_prototype (k : string) : bool :=
  bool_decide
    (k ∈ [ "constructor"; "hasOwnProperty"; "isPrototypeOf";
           "propertyIsEnumerable"; "toLocaleString"; "toString"; "valueOf";
           "__proto__"; "__defineGetter__"; "__defineSetter__";
           "__lookupGetter__"; "__lookupSetter__" ]).

(** The methods on a store of example records: with the names of
    [Object.prototype] as the inherited ones, [isEqual_flat] and
    [hasErrors_nonempty]. *)
Abbreviation initQuery_ex := (initQuery Object_prototype isEqual_flat).
Abbreviation markQueryResult_ex :=
  (markQueryResult Object_prototype hasErrors_nonempty).
Abbreviation markQueryError_ex := (markQueryError Object_prototype).
Abbreviation reset_ex := (reset Object_prototype).
Abbreviation get_ex := (get Object_prototype).
Abbreviation call_ex :=
  (call Object_prototype isEqual_flat hasErrors_nonempty).
Abbreviation exec_ex :=
  (exec Object_prototype isEqual_flat hasErrors_nonempty).
Abbreviation run_ex :=
  (run Object_prototype isEqual_flat hasErrors_nonempty).

(** * Properties *)

Section Properties.

Context {DocumentNode Object Error GraphQLError Any : Type}.
Context (inherited : string → bool).
Context (isEqual : Object → Object → bool).
Context (graphQLResultHasError : ExecutionResult GraphQLError Any → bool).

Local Abbreviation Value :=
  (QueryStoreValue DocumentNode Object Error GraphQLError Any).
Local Abbreviation Store := (gmap string Value).
Local Abbreviation Call := (Call DocumentNode Object Error GraphQLError Any).
Local Abbreviation property := (property inherited).
Local Abbreviation get := (get inherited).
Local Abbreviation assign := (assign inherited).
Local Abbreviation propagate := (propagate inherited).
Local Abbreviation passes_guard := (passes_guard inherited).
Local Abbreviation absent := (absent inherited).
Local Abbreviation initQuery := (initQuery inherited isEqual).
Local Abbreviation markQueryResult :=
  (markQueryResult inherited graphQLResultHasError).
Local Abbreviation markQueryError := (markQueryError inherited).
Local Abbreviation markQueryResultClient := (markQueryResultClient inherited).
Local Abbreviation reset := (reset inherited).
Local Abbreviation exec := (exec inherited isEqual graphQLResultHasError).
Local Abbreviation run := (run inherited isEqual graphQLResultHasError).
Local Abbreviation initialValue := (initialValue isEqual).
Local Abbreviation resolved := (resolved graphQLResultHasError).

Implicit Types (st : Store) (r p : Value) (k queryId linked : string).
Implicit Types (fm : option string) (upd : Value → Value).
Implicit Types (previousQuery : option Value).

(** ** The primitive steps *)

Lemma property_Some st k r : st !! k = Some r → property st k = Own r.
Proof. intros E. unfold property. by rewrite E. Qed.

Lemma property_Inherited st k :
  st !! k = None → inherited k = true → property st k = Inherited.
Proof. intros E Hi. unfold property. by rewrite E, Hi. Qed.

Lemma property_Undefined st k :
  st !! k = None → inherited k = false → property st k = Undefined.
Proof. intros E Hi. unfold property. by rewrite E, Hi. Qed.

Lemma property_Own_inv st k r : property st k = Own r → st !! k = Some r.
Proof.
  unfold property. destruct (st !! k); [congruence|].
  by destruct (inherited k).
Qed.

Lemma property_Inherited_inv st k :
  property st k = Inherited → st !! k = None ∧ inherited k = true.
Proof.
  unfold property. destruct (st !! k); [done|].
  by destruct (inherited k).
Qed.

Lemma property_Undefined_inv st k :
  property st k = Undefined → st !! k = None ∧ inherited k = false.
Proof.
  unfold property. destruct (st !! k); [done|].
  by destruct (inherited k).
Qed.

Lemma alter_Some upd st k r :
  st !! k = Some r → alter upd k st = <[k := upd r]> st.
Proof.
  intros E. apply map_eq. intros j.
  rewrite lookup_alter, lookup_insert. case_decide; [|done].
  subst. by rewrite E.
Qed.

Lemma alter_None upd st k : st !! k = None → alter upd k st = st.
Proof. intros E. apply alter_id. intros x. by rewrite E. Qed.

Lemma assign_Some k upd st r :
  st !! k = Some r → assign k upd st = (Return (), <[k := upd r]> st).
Proof. intros E. unfold assign. by rewrite (property_Some _ _ _ E). Qed.

Lemma assign_Inherited k upd st :
  st !! k = None → inherited k = true → assign k upd st = (Return (), st).
Proof. intros E Hi. unfold assign. by rewrite property_Inherited. Qed.

Lemma assign_Undefined k upd st :
  st !! k = None → inherited k = false →
  assign k upd st = (Throw TypeError, st).
Proof. intros E Hi. unfold assign. by rewrite property_Undefined. Qed.

Lemma assign_own k upd st r :
  assign k upd (<[k := r]> st) = (Return (), <[k := upd r]> st).
Proof.
  rewrite (assign_Some k upd _ r); [|apply lookup_insert_eq].
  by rewrite insert_insert_eq.
Qed.

(** An assignment in closed form. *)
Lemma assign_eq k upd st :
  assign k upd st
  = match property st k with
    | Undefined => (Throw TypeError, st)
    | _ => (Return (), alter upd k st)
    end.
Proof.
  unfold assign. destruct (property st k) as [r| |] eqn:Hp; [| |done].
  - by rewrite (alter_Some _ _ _ _ (property_Own_inv _ _ _ Hp)).
  - by rewrite (alter_None _ _ _ (proj1 (property_Inherited_inv _ _ Hp))).
Qed.

Lemma bind_eq {A B : Type} (m : M _ _ _ _ _ A) (f : A → M _ _ _ _ _ B) st :
  (m ≫= f) st
  = match m st with
    | (Return a, st') => f a st'
    | (Throw e, st') => (Throw e, st')
    end.
Proof. reflexivity. Qed.

(** Two assignments to the same identifier are one. *)
Lemma assign_assign k upd upd' st :
  (assign k upd;; assign k upd') st = assign k (upd' ∘ upd) st.
Proof.
  rewrite bind_eq. unfold assign, property.
  destruct (st !! k) as [r|] eqn:E.
  - rewrite lookup_insert_eq. by rewrite insert_insert_eq.
  - destruct (inherited k); [|done]. by rewrite E.
Qed.

Lemma propagate_Some linked upd st r :
  st !! linked = Some r →
  propagate (Some linked) upd st = (Return (), <[linked := upd r]> st).
Proof. apply assign_Some. Qed.

Lemma propagate_Undefined linked upd st :
  st !! linked = None → inherited linked = false →
  propagate (Some linked) upd st = (Throw TypeError, st).
Proof. apply assign_Undefined. Qed.

Lemma propagate_lookup fm upd st k :
  (propagate fm upd st).2 !! k
  = if bool_decide (fm = Some k) then upd <$> st !! k else st !! k.
Proof.
  destruct fm as [linked|]; cbn [propagate]; [|done].
  rewrite assign_eq. case_bool_decide as Hk.
  - injection Hk as ->.
    destruct (property st k) eqn:Hp; cbn [snd];
      rewrite ?lookup_alter_eq; [done..|].
    by rewrite (proj1 (property_Undefined_inv _ _ Hp)).
  - assert (linked ≠ k) by congruence.
    destruct (property st linked); cbn [snd];
      by rewrite ?lookup_alter_ne.
Qed.

(** ** The methods in closed form *)

Lemma initQuery_eq queryId qs d spv vs isPoll isRefetch md fm st :
  initQuery queryId qs d spv vs isPoll isRefetch md fm st
  = if queryStringChanged (property st queryId) qs
    then (Throw (InternalError InternalErrorMessage), st)
    else propagate fm (set_networkStatus fetchMore)
           (<[queryId :=
                initialValue (st !! queryId) qs d spv vs isPoll isRefetch md]> st).
Proof.
  unfold initQuery, initialValue, variablesChanged, queryStringChanged.
  rewrite bind_eq. cbn [read].
  destruct (property st queryId) as [p| |] eqn:Hp; rewrite bind_eq.
  - rewrite (property_Own_inv _ _ _ Hp).
    destruct (negb (String.eqb (queryString p) qs)); [done|].
    cbn [ret throw].
    destruct spv, (bool_decide (networkStatus p = loading)),
      (isEqual (variables p) vs), isPoll, isRefetch; reflexivity.
  - done.
  - rewrite (proj1 (property_Undefined_inv _ _ Hp)).
    cbn [ret]. destruct isPoll, isRefetch; reflexivity.
Qed.

Lemma markQueryResult_eq queryId result fm st :
  markQueryResult queryId result fm st
  = match property st queryId with
    | Own r =>
        propagate fm (set_networkStatus ready)
          (<[queryId := resolved result r]> st)
    | Inherited => propagate fm (set_networkStatus ready) st
    | Undefined => (Return (), st)
    end.
Proof.
  unfold markQueryResult. rewrite bind_eq. cbn [read].
  destruct (property st queryId) as [r| |] eqn:Hp; [| |done].
  - rewrite bind_eq, (assign_Some _ _ _ _ (property_Own_inv _ _ _ Hp)).
    do 3 rewrite bind_eq, assign_own.
    reflexivity.
  - apply property_Inherited_inv in Hp as [E Hi].
    by do 4 rewrite bind_eq, (assign_Inherited _ _ _ E Hi).
Qed.

Lemma markQueryError_eq queryId err fm st :
  markQueryError queryId err fm st
  = match property st queryId with
    | Own r => propagate fm (failed err) (<[queryId := failed err r]> st)
    | Inherited => propagate fm (failed err) st
    | Undefined => (Return (), st)
    end.
Proof.
  assert (∀ st', match fm with
                 | Some linked =>
                     assign linked (set_networkError (Some err));;
                     assign linked (set_networkStatus error)
                 | None => ret ()
                 end st' = propagate fm (failed err) st') as Hfm.
  { intros st'. destruct fm as [linked|]; [|done]. apply assign_assign. }
  unfold markQueryError. rewrite bind_eq. cbn [read].
  destruct (property st queryId) as [r| |] eqn:Hp; [| |done].
  - rewrite bind_eq, (assign_Some _ _ _ _ (property_Own_inv _ _ _ Hp)).
    rewrite bind_eq, assign_own. apply Hfm.
  - apply property_Inherited_inv in Hp as [E Hi].
    do 2 rewrite bind_eq, (assign_Inherited _ _ _ E Hi). apply Hfm.
Qed.

Lemma markQueryResultClient_eq queryId complete st :
  markQueryResultClient queryId complete st
  = (Return (), alter (resolvedClient complete) queryId st).
Proof.
  unfold markQueryResultClient. rewrite bind_eq. cbn [read].
  destruct (property st queryId) as [r| |] eqn:Hp.
  - pose proof (property_Own_inv _ _ _ Hp) as E.
    rewrite bind_eq, (assign_Some _ _ _ _ E).
    rewrite bind_eq, assign_own. rewrite assign_own.
    by rewrite (alter_Some _ _ _ _ E).
  - apply property_Inherited_inv in Hp as [E Hi].
    do 2 rewrite bind_eq, (assign_Inherited _ _ _ E Hi).
    by rewrite (assign_Inherited _ _ _ E Hi), alter_None.
  - apply property_Undefined_inv in Hp as [E _]. by rewrite alter_None.
Qed.

(** ** [reset] *)

Lemma indexOf_from_found (l : list string) (x : string) (i : Z) :
  (0 ≤ i)%Z → (-1 < indexOf_from i l x)%Z ↔ x ∈ l.
Proof.
  revert i. induction l as [|y l IH]; intros i Hi; cbn [indexOf_from].
  - split; [lia|]. intros H. by apply not_elem_of_nil in H.
  - destruct (String.eqb_spec y x) as [->|Hne].
    + split; [intros _; left | lia].
    + rewrite IH by lia. rewrite elem_of_cons.
      split; [by right | by intros [->|?]].
Qed.

Lemma indexOf_found (l : list string) (x : string) :
  (-1 < indexOf l x)%Z ↔ x ∈ l.
Proof. by apply indexOf_from_found. Qed.

Lemma forEach_assign (l : list string) upd st :
  NoDup l →
  (∀ k, k ∈ l → is_Some (st !! k)) →
  ∃ st', forEach l (λ key, assign key upd) st = (Return (), st')
    ∧ ∀ k, st' !! k
           = if bool_decide (k ∈ l) then upd <$> st !! k else st !! k.
Proof.
  revert st. induction l as [|x l IH]; intros st Hnd Hin.
  - exists st. split; [done|]. intros k. by rewrite bool_decide_eq_false_2
      by apply not_elem_of_nil.
  - apply NoDup_cons in Hnd as [Hx Hnd].
    destruct (Hin x) as [r Er]; [left|].
    destruct (IH (<[x := upd r]> st) Hnd) as (st' & Erun & Hst').
    { intros k Hk. rewrite lookup_insert. case_decide; [done|].
      apply Hin. by right. }
    exists st'. split.
    { cbn [forEach]. by rewrite bind_eq, (assign_Some _ _ _ _ Er). }
    intros k. rewrite Hst'. destruct (decide (k = x)) as [->|Hne].
    + rewrite (bool_decide_eq_false_2 _ Hx), lookup_insert_eq, Er.
      by rewrite bool_decide_eq_true_2 by left.
    + rewrite lookup_insert_ne by done.
      destruct (decide (k ∈ l)) as [Hl|Hl].
      * rewrite (bool_decide_eq_true_2 _ Hl).
        by rewrite bool_decide_eq_true_2 by (by right).
      * rewrite (bool_decide_eq_false_2 _ Hl).
        rewrite bool_decide_eq_false_2; [done|].
        rewrite elem_of_cons. by intros [?|?].
Qed.

Lemma reset_eq (observableQueryIds : list string) st :
  ∃ st', reset observableQueryIds st = (Return (), st')
    ∧ ∀ k, st' !! k
           = if bool_decide (k ∈ observableQueryIds)
             then set_networkStatus loading <$> st !! k
             else st !! k.
Proof.
  unfold reset. rewrite bind_eq. cbn [keys].
  set (l := filter _ _).
  destruct (forEach_assign l (set_networkStatus loading) st)
    as (st' & Erun & Hst').
  { apply NoDup_filter, NoDup_fst_map_to_list. }
  { intros k [_ Hk]%list_elem_of_filter.
    apply list_elem_of_fmap in Hk as ([k' r] & -> & Hk).
    apply elem_of_map_to_list in Hk. by exists r. }
  exists st'. split; [done|]. intros k. rewrite Hst'.
  destruct (st !! k) as [r|] eqn:Ek.
  - assert (k ∈ l ↔ k ∈ observableQueryIds) as Hiff.
    { unfold l. rewrite list_elem_of_filter, indexOf_found.
      split; [by intros [? _]|]. intros Hk. split; [done|].
      apply list_elem_of_fmap. exists (k, r). split; [done|].
      by apply elem_of_map_to_list. }
    by rewrite (bool_decide_ext _ _ Hiff).
  - by do 2 case_bool_decide.
Qed.

(** ** The record of an identifier after a call *)

Lemma initQuery_lookup queryId qs d spv vs isPoll isRefetch md fm st k :
  (initQuery queryId qs d spv vs isPoll isRefetch md fm st).2 !! k
  = if queryStringChanged (property st queryId) qs then st !! k
    else
      let st1 :=
        <[queryId :=
            initialValue (st !! queryId) qs d spv vs isPoll isRefetch md]> st in
      if bool_decide (fm = Some k)
      then set_networkStatus fetchMore <$> st1 !! k
      else st1 !! k.
Proof.
  rewrite initQuery_eq. destruct (queryStringChanged _ _); [done|].
  apply propagate_lookup.
Qed.

Lemma markQueryResult_lookup queryId result fm st k :
  (markQueryResult queryId result fm st).2 !! k
  = match property st queryId with
    | Undefined => st !! k
    | _ =>
        let st1 := alter (resolved result) queryId st in
        if bool_decide (fm = Some k)
        then set_networkStatus ready <$> st1 !! k
        else st1 !! k
    end.
Proof.
  rewrite markQueryResult_eq.
  destruct (property st queryId) as [r| |] eqn:Hp; [| |done];
    rewrite propagate_lookup; cbn zeta.
  - by rewrite (alter_Some _ _ _ _ (property_Own_inv _ _ _ Hp)).
  - by rewrite (alter_None _ _ _ (proj1 (property_Inherited_inv _ _ Hp))).
Qed.

Lemma markQueryError_lookup queryId (err : Error) fm st k :
  (markQueryError queryId err fm st).2 !! k
  = match property st queryId with
    | Undefined => st !! k
    | _ =>
        let st1 := alter (failed err) queryId st in
        if bool_decide (fm = Some k)
        then failed err <$> st1 !! k
        else st1 !! k
    end.
Proof.
  rewrite markQueryError_eq.
  destruct (property st queryId) as [r| |] eqn:Hp; [| |done];
    rewrite propagate_lookup; cbn zeta.
  - by rewrite (alter_Some _ _ _ _ (property_Own_inv _ _ _ Hp)).
  - by rewrite (alter_None _ _ _ (proj1 (property_Inherited_inv _ _ Hp))).
Qed.

Lemma markQueryResultClient_lookup queryId complete st k :
  (markQueryResultClient queryId complete st).2 !! k
  = alter (resolvedClient complete) queryId st !! k.
Proof. by rewrite markQueryResultClient_eq. Qed.

Lemma reset_lookup (observableQueryIds : list string) st k :
  (reset observableQueryIds st).2 !! k
  = if bool_decide (k ∈ observableQueryIds)
    then set_networkStatus loading <$> st !! k
    else st !! k.
Proof.
  destruct (reset_eq observableQueryIds st) as (st' & -> & Hst').
  apply Hst'.
Qed.

(** The record of [k] after two updates of the store, one of the record
    of [queryId] and then one of the record that [fm] names, comes from
    the record [k] had by none, one or both of them. *)
Lemma updated_lookup (own linked_upd : Value → Value) queryId fm st k r' :
  (if bool_decide (fm = Some k)
   then linked_upd <$> alter own queryId st !! k
   else alter own queryId st !! k) = Some r' →
  ∃ r, st !! k = Some r
    ∧ (r' = r ∧ queryId ≠ k ∧ fm ≠ Some k
       ∨ r' = own r ∧ queryId = k ∧ fm ≠ Some k
       ∨ r' = linked_upd r ∧ queryId ≠ k ∧ fm = Some k
       ∨ r' = linked_upd (own r) ∧ queryId = k ∧ fm = Some k).
Proof.
  rewrite lookup_alter.
  case_bool_decide; case_decide; subst;
    rewrite ?fmap_Some; intros E;
    repeat match goal with
      | H : ∃ _, _ |- _ => destruct H as (? & ? & ?)
      | H : _ <$> _ = Some _ |- _ => apply fmap_Some in H
      end; subst; eexists; (split; [eassumption|]); tauto.
Qed.

(** ** Re-initialising a tracked query *)

Lemma queryStringChanged_Own p qs :
  queryStringChanged (Own p) qs = true ↔ queryString p ≠ qs.
Proof.
  cbn [queryStringChanged]. destruct (String.eqb_spec (queryString p) qs);
    cbn [negb]; split; congruence.
Qed.

Lemma queryStringChanged_Own_false p qs :
  queryStringChanged (Own p) qs = false ↔ queryString p = qs.
Proof.
  cbn [queryStringChanged]. destruct (String.eqb_spec (queryString p) qs);
    cbn [negb]; split; congruence.
Qed.

Lemma passes_guard_iff st queryId qs :
  passes_guard st queryId qs
  ↔ queryStringChanged (property st queryId) qs = false.
Proof.
  unfold passes_guard. destruct (property st queryId) as [p| |].
  - by rewrite queryStringChanged_Own_false.
  - done.
  - done.
Qed.

Lemma passes_guard_Some st queryId qs p :
  st !! queryId = Some p → passes_guard st queryId qs → queryString p = qs.
Proof.
  intros E. unfold passes_guard. by rewrite (property_Some _ _ _ E).
Qed.

Lemma queryStringChanged_false st queryId qs :
  passes_guard st queryId qs →
  queryStringChanged (property st queryId) qs = false.
Proof. apply passes_guard_iff. Qed.

Lemma propagate_not_InternalError fm upd st message :
  (propagate fm upd st).1 ≠ Throw (InternalError message).
Proof.
  destruct fm as [linked|]; [|done]. cbn [propagate]. unfold assign.
  by destruct (property st linked).
Qed.

(** C2.  [initQuery] on an identifier that has a record throws the
    internal-consistency error exactly when the new query string differs
    from the stored one, whatever the status and the other fields of the
    record and whatever the other arguments; when it throws, the store is
    left as it was; with the same query string it throws no internal error
    at all. *)
Theorem initQuery_InternalError_iff
    queryId qs d spv vs isPoll isRefetch md fm st p :
  st !! queryId = Some p →
  (queryString p ≠ qs ↔
     initQuery queryId qs d spv vs isPoll isRefetch md fm st
     = (Throw (InternalError InternalErrorMessage), st))
  ∧ (queryString p = qs →
     ∀ message,
       (initQuery queryId qs d spv vs isPoll isRefetch md fm st).1
       ≠ Throw (InternalError message)).
Proof.
  intros E. rewrite initQuery_eq, (property_Some _ _ _ E).
  destruct (queryStringChanged (Own p) qs) eqn:Ec.
  - apply queryStringChanged_Own in Ec. split; [done|].
    intros Heq. by destruct Ec.
  - apply queryStringChanged_Own_false in Ec.
    split.
    + split; [done|]. intros Hp. exfalso.
      eapply propagate_not_InternalError. by rewrite Hp.
    + intros _ message. apply propagate_not_InternalError.
Qed.

(** ** The status [initQuery] selects *)

Lemma variablesChanged_true previousQuery spv vs :
  variablesChanged isEqual previousQuery spv vs = true ↔
  spv = true
  ∧ ∃ p, previousQuery = Some p ∧ networkStatus p ≠ loading
         ∧ isEqual (variables p) vs = false.
Proof.
  destruct previousQuery as [p|]; unfold variablesChanged.
  - rewrite !andb_true_iff, !negb_true_iff, bool_decide_eq_false.
    split.
    + intros [[? ?] ?]. eauto 6.
    + intros (? & p' & [= <-] & ? & ?). eauto.
  - split; [done|]. by intros (_ & p & ? & _).
Qed.

Lemma initialValue_setVariables previousQuery qs d spv vs isPoll isRefetch md :
  networkStatus (initialValue previousQuery qs d spv vs isPoll isRefetch md)
  = setVariables ↔
  variablesChanged isEqual previousQuery spv vs = true.
Proof.
  cbn [initialValue networkStatus].
  destruct (variablesChanged isEqual previousQuery spv vs), isPoll, isRefetch;
    split; congruence.
Qed.

Lemma initialValue_not_fetchMore previousQuery qs d spv vs isPoll isRefetch md :
  networkStatus (initialValue previousQuery qs d spv vs isPoll isRefetch md)
  ≠ fetchMore.
Proof.
  cbn [initialValue networkStatus].
  by destruct (variablesChanged isEqual previousQuery spv vs), isPoll, isRefetch.
Qed.

(** The record of [queryId] after a call that passed the guard and whose
    [fetchMoreForQueryId] is not [queryId] itself. *)
Lemma initQuery_own queryId qs d spv vs isPoll isRefetch md fm st :
  passes_guard st queryId qs →
  fm ≠ Some queryId →
  (initQuery queryId qs d spv vs isPoll isRefetch md fm st).2 !! queryId
  = Some (initialValue (st !! queryId) qs d spv vs isPoll isRefetch md).
Proof.
  intros Hc Hfm. rewrite initQuery_lookup, queryStringChanged_false by done.
  cbn zeta. by rewrite bool_decide_eq_false_2, lookup_insert_eq.
Qed.

(** C3 (amended).  A prior record in status [loading] never gives
    [setVariables], whatever the call.  When [initQuery] passes its
    consistency guard and [fetchMoreForQueryId] is not [queryId] itself,
    the record it leaves for [queryId] has status [setVariables] exactly
    when [storePreviousVariables] is true, a prior record exists, its
    status is not [loading] and [isEqual] finds its variables different
    from the new ones; then [previousVariables] is the prior record's
    [variables]. *)
Theorem initQuery_setVariables_iff
    queryId qs d spv vs isPoll isRefetch md fm st :
  (∀ p r,
     st !! queryId = Some p → networkStatus p = loading →
     (initQuery queryId qs d spv vs isPoll isRefetch md fm st).2 !! queryId
     = Some r →
     networkStatus r ≠ setVariables)
  ∧ (passes_guard st queryId qs →
     fm ≠ Some queryId →
     ∃ r,
       (initQuery queryId qs d spv vs isPoll isRefetch md fm st).2 !! queryId
       = Some r
       ∧ (networkStatus r = setVariables ↔
            spv = true
            ∧ ∃ p, st !! queryId = Some p ∧ networkStatus p ≠ loading
                   ∧ isEqual (variables p) vs = false)
       ∧ (networkStatus r = setVariables →
            ∃ p, st !! queryId = Some p
                 ∧ previousVariables r = Some (variables p))).
Proof.
  split.
  - intros p r Ep Hl. rewrite initQuery_lookup.
    destruct (queryStringChanged _ _); [congruence|]. cbn zeta.
    rewrite lookup_insert_eq. case_bool_decide; intros [= <-].
    + done.
    + rewrite initialValue_setVariables, variablesChanged_true.
      intros (_ & p' & Ep' & Hnl & _). congruence.
  - intros Hqs Hfm. eexists. split; [by apply initQuery_own|].
    rewrite initialValue_setVariables. split; [apply variablesChanged_true|].
    intros Hch. cbn [initialValue previousVariables]. rewrite Hch.
    apply variablesChanged_true in Hch as (_ & p & -> & _). by exists p.
Qed.

(** ** The linked record after [initQuery] *)

(** C4 (amended).  When [fetchMoreForQueryId] names a tracked record and
    the call passes the consistency guard, [initQuery] returns normally and
    the linked record has status [fetchMore] whatever its status was; when
    it is another record than [queryId]'s, nothing else of it changes. *)
Theorem initQuery_linked_fetchMore
    queryId qs d spv vs isPoll isRefetch md linked st rl :
  st !! linked = Some rl →
  passes_guard st queryId qs →
  ∃ st' rl',
    initQuery queryId qs d spv vs isPoll isRefetch md (Some linked) st
    = (Return (), st')
    ∧ st' !! linked = Some rl'
    ∧ networkStatus rl' = fetchMore
    ∧ (linked ≠ queryId → rl' = set_networkStatus fetchMore rl).
Proof.
  intros El Hqs. rewrite initQuery_eq, queryStringChanged_false by done.
  destruct (decide (linked = queryId)) as [->|Hne].
  - eexists _, _. split; [by apply propagate_Some, lookup_insert_eq|].
    rewrite lookup_insert_eq. by split.
  - eexists _, _. split.
    { apply propagate_Some. by rewrite lookup_insert_ne. }
    rewrite lookup_insert_eq. by split.
Qed.

(** ** Settling a query *)

(** C5, at the failing input.  [queryId] is untracked and is a name the
    store inherits ([constructor], say): [markQueryResult] does not take
    its early return.  It makes its four assignments on the inherited
    object and goes on to the linked record, so that a tracked linked
    record is set to [ready]: the store is not left as it was. *)
Theorem markQueryResult_inherited queryId result linked st rl :
  st !! queryId = None →
  inherited queryId = true →
  st !! linked = Some rl →
  markQueryResult queryId result (Some linked) st
  = (Return (), <[linked := set_networkStatus ready rl]> st).
Proof.
  intros E Hi El.
  rewrite markQueryResult_eq, (property_Inherited _ _ E Hi).
  by apply propagate_Some.
Qed.

(** X14.  [markQueryResult] on an identifier that is neither tracked nor
    inherited returns and leaves the store as it is.  On a tracked one it
    leaves a record with no [networkError], with [graphQLErrors] the
    errors of the result when [graphQLResultHasError] holds of it and
    empty otherwise, with no [previousVariables] and with status [ready],
    its other fields being those it had.  When moreover
    [fetchMoreForQueryId] names a tracked record, the call returns and
    that record has status [ready]. *)
Theorem markQueryResult_spec queryId result fm st :
  (st !! queryId = None → inherited queryId = false →
     markQueryResult queryId result fm st = (Return (), st))
  ∧ (∀ r, st !! queryId = Some r →
       ∃ r', (markQueryResult queryId result fm st).2 !! queryId = Some r'
         ∧ networkError r' = None
         ∧ (graphQLResultHasError result = true →
              ∀ es, errors result = Some es → graphQLErrors r' = es)
         ∧ (graphQLResultHasError result = false → graphQLErrors r' = [])
         ∧ graphQLErrors r'
           = (if graphQLResultHasError result
              then default [] (errors result) else [])
         ∧ previousVariables r' = None
         ∧ networkStatus r' = ready
         ∧ queryString r' = queryString r ∧ document r' = document r
         ∧ variables r' = variables r ∧ metadata r' = metadata r)
  ∧ (∀ r linked rl,
       st !! queryId = Some r → fm = Some linked → st !! linked = Some rl →
       ∃ st' rl',
         markQueryResult queryId result fm st = (Return (), st')
         ∧ st' !! linked = Some rl'
         ∧ networkStatus rl' = ready
         ∧ (linked ≠ queryId → rl' = set_networkStatus ready rl)).
Proof.
  split; [|split].
  - intros E Hi. by rewrite markQueryResult_eq, property_Undefined.
  - intros r E.
    rewrite markQueryResult_lookup, (property_Some _ _ _ E). cbn zeta.
    rewrite lookup_alter_eq, E.
    exists (resolved result r). split; [by case_bool_decide|].
    cbn. unfold resultErrors.
    destruct (graphQLResultHasError result), (errors result);
      repeat split; intros; by simplify_eq.
  - intros r linked rl E -> El.
    rewrite markQueryResult_eq, (property_Some _ _ _ E).
    destruct (decide (linked = queryId)) as [->|Hne].
    + eexists _, _. split; [by apply propagate_Some, lookup_insert_eq|].
      rewrite lookup_insert_eq. by split.
    + eexists _, _. split.
      { apply propagate_Some. by rewrite lookup_insert_ne. }
      rewrite lookup_insert_eq. by split.
Qed.

(** C6, at the failing input.  [queryId] is untracked and is a name the
    store inherits: [markQueryError] does not take its early return.  It
    makes its assignments on the inherited object and goes on to the
    linked record, so that a tracked linked record gets the error and the
    status [error]: the store is not left as it was. *)
Theorem markQueryError_inherited queryId (err : Error) linked st rl :
  st !! queryId = None →
  inherited queryId = true →
  st !! linked = Some rl →
  markQueryError queryId err (Some linked) st
  = (Return (), <[linked := failed err rl]> st).
Proof.
  intros E Hi El.
  rewrite markQueryError_eq, (property_Inherited _ _ E Hi).
  by apply propagate_Some.
Qed.

(** X15.  [markQueryError] on an identifier that is neither tracked nor
    inherited returns and leaves the store as it is.  On a tracked one it
    leaves a record whose [networkError] is the error supplied and whose
    status is [error], its other fields being those it had.  When
    moreover [fetchMoreForQueryId] names a tracked record, the call
    returns and that record has the same [networkError] and the status
    [error]. *)
Theorem markQueryError_spec queryId (err : Error) fm st :
  (st !! queryId = None → inherited queryId = false →
     markQueryError queryId err fm st = (Return (), st))
  ∧ (∀ r, st !! queryId = Some r →
       ∃ r', (markQueryError queryId err fm st).2 !! queryId = Some r'
         ∧ networkError r' = Some err
         ∧ networkStatus r' = error
         ∧ queryString r' = queryString r ∧ document r' = document r
         ∧ variables r' = variables r
         ∧ graphQLErrors r' = graphQLErrors r ∧ metadata r' = metadata r)
  ∧ (∀ r linked rl,
       st !! queryId = Some r → fm = Some linked → st !! linked = Some rl →
       ∃ st' rl',
         markQueryError queryId err fm st = (Return (), st')
         ∧ st' !! linked = Some rl'
         ∧ networkError rl' = Some err
         ∧ networkStatus rl' = error
         ∧ (linked ≠ queryId → rl' = failed err rl)).
Proof.
  split; [|split].
  - intros E Hi. by rewrite markQueryError_eq, property_Undefined.
  - intros r E.
    rewrite markQueryError_lookup, (property_Some _ _ _ E). cbn zeta.
    rewrite lookup_alter_eq, E.
    exists (failed err r). split; [by case_bool_decide|done].
  - intros r linked rl E -> El.
    rewrite markQueryError_eq, (property_Some _ _ _ E).
    destruct (decide (linked = queryId)) as [->|Hne].
    + eexists _, _. split; [by apply propagate_Some, lookup_insert_eq|].
      rewrite lookup_insert_eq. by split.
    + eexists _, _. split.
      { apply propagate_Some. by rewrite lookup_insert_ne. }
      rewrite lookup_insert_eq. by split.
Qed.

(** ** [reset] and [stopQuery] *)

(** C7.  [reset] returns; a tracked identifier that occurs in
    [observableQueryIds] keeps its record with the status set to [loading]
    and every other field as it was; a tracked identifier that does not
    occur there keeps its record as it is; and no record is added or
    removed. *)
Theorem reset_spec (observableQueryIds : list string) st :
  ∃ st',
    reset observableQueryIds st = (Return (), st')
    ∧ (∀ k r, st !! k = Some r → k ∈ observableQueryIds →
         ∃ r', st' !! k = Some r'
           ∧ networkStatus r' = loading
           ∧ queryString r' = queryString r ∧ document r' = document r
           ∧ variables r' = variables r
           ∧ previousVariables r' = previousVariables r
           ∧ networkError r' = networkError r
           ∧ graphQLErrors r' = graphQLErrors r ∧ metadata r' = metadata r)
    ∧ (∀ k, k ∉ observableQueryIds → st' !! k = st !! k)
    ∧ (∀ k, st' !! k = None ↔ st !! k = None).
Proof.
  destruct (reset_eq observableQueryIds st) as (st' & Erun & Hst').
  exists st'. split; [done|]. split; [|split].
  - intros k r Ek Hk. rewrite Hst', Ek, bool_decide_eq_true_2 by done.
    by eexists.
  - intros k Hk. by rewrite Hst', bool_decide_eq_false_2.
  - intros k. rewrite Hst'. case_bool_decide; [|done].
    by rewrite fmap_None.
Qed.

Lemma run_snoc cs c st : run (cs ++ [c]) st = exec (run cs st) c.
Proof. apply foldl_snoc. Qed.

(** C8, at the failing input.  After [stopQuery], [get] finds for the
    identifier what the store inherits under that name: [undefined] for
    a name that is not inherited, and the inherited object, not
    [undefined], for one that is ([constructor], say), from every store
    and so after every sequence of calls. *)
Theorem get_after_stopQuery queryId st :
  get (stopQuery queryId st).2 queryId
  = (if inherited queryId then Inherited else Undefined)
  ∧ (∀ cs, inherited queryId = true →
       get (run (cs ++ [StopQuery queryId]) st) queryId = Inherited).
Proof.
  assert (∀ st', get (stopQuery queryId st').2 queryId
                 = if inherited queryId then Inherited else Undefined) as H.
  { intros st'. unfold get, property, stopQuery, remove. cbn [snd].
    by rewrite lookup_delete_eq. }
  split; [apply H|].
  intros cs Hi. rewrite run_snoc. unfold exec. cbn [call].
  by rewrite H, Hi.
Qed.

(** X16.  [stopQuery] returns and removes the record of the identifier
    and no other, from every store and so after every sequence of calls;
    on an untracked identifier the store is left as it is, so that
    stopping twice is stopping once; and for an identifier that is not an
    inherited name, [get] finds [undefined] afterwards. *)
Theorem stopQuery_spec queryId st :
  (stopQuery queryId st).1 = Return ()
  ∧ (stopQuery queryId st).2 !! queryId = None
  ∧ (∀ k, k ≠ queryId → (stopQuery queryId st).2 !! k = st !! k)
  ∧ (st !! queryId = None → stopQuery queryId st = (Return (), st))
  ∧ stopQuery queryId (stopQuery queryId st).2 = stopQuery queryId st
  ∧ (∀ cs, run (cs ++ [StopQuery queryId]) st !! queryId = None)
  ∧ (inherited queryId = false →
       get (stopQuery queryId st).2 queryId = Undefined).
Proof.
  unfold stopQuery, remove. cbn [fst snd].
  split; [done|]. split; [apply lookup_delete_eq|].
  split; [by intros k Hk; apply lookup_delete_ne|].
  split; [by intros E; rewrite delete_id|].
  split; [by rewrite delete_delete_eq|].
  split.
  - intros cs. rewrite run_snoc. apply lookup_delete_eq.
  - intros Hi. unfold get, property. by rewrite lookup_delete_eq, Hi.
Qed.

(** ** How a record comes to status [fetchMore] *)

Lemma exec_fetchMore st (c : Call) k r' :
  exec st c !! k = Some r' →
  networkStatus r' = fetchMore →
  initQuery_linking k c = true ∨ st !! k = Some r'.
Proof.
  unfold exec.
  destruct c as [queryId qs d spv vs isPoll isRefetch md fm
                |queryId result fm|queryId err fm|queryId complete
                |queryId|ids]; cbn [call initQuery_linking].
  - rewrite initQuery_lookup.
    destruct (queryStringChanged _ _); [by right|]. cbn zeta.
    case_bool_decide as Hfm.
    { subst fm. left. by apply bool_decide_eq_true_2. }
    rewrite lookup_insert. case_decide as Hk; [|by right].
    intros [= <-] Hs. by apply initialValue_not_fetchMore in Hs.
  - rewrite markQueryResult_lookup.
    destruct (property st queryId); [| |by right]; cbn zeta;
      intros (r0 & E & [(-> & _)|[(-> & _)|[(-> & _)|(-> & _)]]])%updated_lookup;
      by try right.
  - rewrite markQueryError_lookup.
    destruct (property st queryId); [| |by right]; cbn zeta;
      intros (r0 & E & [(-> & _)|[(-> & _)|[(-> & _)|(-> & _)]]])%updated_lookup;
      by try right.
  - rewrite markQueryResultClient_lookup, lookup_alter.
    case_decide; [|by right]. subst.
    intros (r & _ & ->)%fmap_Some. by destruct complete.
  - unfold stopQuery, remove. cbn [snd].
    intros [_ E]%lookup_delete_Some. by right.
  - rewrite reset_lookup. case_bool_decide; [|by right].
    intros (rl & _ & ->)%fmap_Some. done.
Qed.

(** C9.  The status [initQuery] selects for the record it stores is one
    of [setVariables], [poll], [refetch] and [loading], never [fetchMore].
    A record that has status [fetchMore] after a call was named by the
    [fetchMoreForQueryId] of that call, a call of [initQuery], or is the
    record the identifier had before the call.  So a record that has
    status [fetchMore] after a sequence of calls on the empty store was
    named by the [fetchMoreForQueryId] of an [initQuery] of the sequence. *)
Theorem fetchMore_only_by_linked_initQuery :
  (∀ queryId qs d spv vs isPoll isRefetch md fm st,
     passes_guard st queryId qs →
     fm ≠ Some queryId →
     ∃ r,
       (initQuery queryId qs d spv vs isPoll isRefetch md fm st).2 !! queryId
       = Some r
       ∧ networkStatus r ≠ fetchMore
       ∧ networkStatus r ∈ [setVariables; poll; refetch; loading])
  ∧ (∀ st (c : Call) k r',
       exec st c !! k = Some r' → networkStatus r' = fetchMore →
       initQuery_linking k c = true ∨ st !! k = Some r')
  ∧ (∀ (cs : list Call) k r,
       run cs ∅ !! k = Some r → networkStatus r = fetchMore →
       ∃ c, c ∈ cs ∧ initQuery_linking k c = true).
Proof.
  split; [|split].
  - intros queryId qs d spv vs isPoll isRefetch md fm st Hqs Hfm.
    eexists. split; [by apply initQuery_own|].
    split; [apply initialValue_not_fetchMore|].
    cbn [initialValue networkStatus].
    destruct (variablesChanged _ _ _ _), isPoll, isRefetch;
      repeat first [by left | right].
  - apply exec_fetchMore.
  - induction cs as [|c cs IH] using rev_ind; intros k r.
    + unfold run. cbn [foldl]. by rewrite lookup_empty.
    + rewrite run_snoc. intros E Hs.
      destruct (exec_fetchMore _ _ _ _ E Hs) as [Hc|E'].
      * exists c. split; [|done]. apply elem_of_app. right. left.
      * destruct (IH _ _ E' Hs) as (c' & Hin & Hc').
        exists c'. split; [|done]. apply elem_of_app. by left.
Qed.

(** ** Where [previousVariables] is kept and where it is cleared *)

Lemma initialValue_previousVariables
    previousQuery qs d spv vs isPoll isRefetch md :
  previousVariables
    (initialValue previousQuery qs d spv vs isPoll isRefetch md) ≠ None →
  networkStatus (initialValue previousQuery qs d spv vs isPoll isRefetch md)
  = setVariables.
Proof.
  cbn [initialValue previousVariables networkStatus].
  by destruct (variablesChanged _ _ _ _).
Qed.

Lemma exec_unlinked_invariant st (c : Call) :
  unlinked c = true →
  previousVariables_only_setVariables st →
  previousVariables_only_setVariables (exec st c).
Proof.
  intros Hc Hst k r'. unfold exec.
  destruct c as [queryId qs d spv vs isPoll isRefetch md [linked|]
                |queryId result [linked|]|queryId err fm|queryId complete
                |queryId|ids]; try discriminate Hc; cbn [call].
  - rewrite initQuery_lookup.
    destruct (queryStringChanged _ _); [apply Hst|]. cbn zeta.
    rewrite bool_decide_eq_false_2, lookup_insert by done.
    case_decide; [|apply Hst].
    intros [= <-]. apply initialValue_previousVariables.
  - rewrite markQueryResult_lookup.
    destruct (property st queryId); [| |apply Hst]; cbn zeta;
      rewrite bool_decide_eq_false_2, lookup_alter by done;
      (case_decide; [|apply Hst]); by intros (r0 & _ & ->)%fmap_Some.
  - rewrite markQueryResultClient_lookup, lookup_alter.
    case_decide; [|apply Hst]. by intros (r & _ & ->)%fmap_Some.
  - unfold stopQuery, remove. cbn [snd].
    intros [_ E]%lookup_delete_Some. apply (Hst _ _ E).
Qed.


(** ** When the update of the linked record throws *)

(** C10 (amended).  For a [fetchMoreForQueryId] that is not a name the
    store inherits: the assignment to the record it names throws a
    [TypeError] exactly when that record is absent at the time of the
    assignment, and the updates made before it stay.  For
    [markQueryResult] and [markQueryError] on a tracked identifier that is
    when the linked identifier is untracked.  [initQuery] has written the
    record of [queryId] before, so that a call that passes the consistency
    guard throws exactly when the linked identifier is untracked and is
    not [queryId]; a call that fails the guard on a tracked identifier
    throws the internal error, not a [TypeError]. *)
Theorem linked_update_TypeError_iff :
  (∀ queryId result linked st r,
     st !! queryId = Some r → inherited linked = false →
     ((markQueryResult queryId result (Some linked) st).1 = Throw TypeError
      ↔ st !! linked = None)
     ∧ (st !! linked = None →
          markQueryResult queryId result (Some linked) st
          = (Throw TypeError, <[queryId := resolved result r]> st))
     ∧ (is_Some (st !! linked) →
          (markQueryResult queryId result (Some linked) st).1 = Return ()))
  ∧ (∀ queryId (err : Error) linked st r,
     st !! queryId = Some r → inherited linked = false →
     ((markQueryError queryId err (Some linked) st).1 = Throw TypeError
      ↔ st !! linked = None)
     ∧ (st !! linked = None →
          markQueryError queryId err (Some linked) st
          = (Throw TypeError, <[queryId := failed err r]> st))
     ∧ (is_Some (st !! linked) →
          (markQueryError queryId err (Some linked) st).1 = Return ()))
  ∧ (∀ queryId qs d spv vs isPoll isRefetch md linked st,
     passes_guard st queryId qs → inherited linked = false →
     ((initQuery queryId qs d spv vs isPoll isRefetch md (Some linked) st).1
      = Throw TypeError
      ↔ linked ≠ queryId ∧ st !! linked = None)
     ∧ (linked ≠ queryId → st !! linked = None →
          initQuery queryId qs d spv vs isPoll isRefetch md (Some linked) st
          = (Throw TypeError,
             <[queryId :=
                 initialValue (st !! queryId) qs d spv vs isPoll isRefetch md]>
               st))
     ∧ (linked = queryId ∨ is_Some (st !! linked) →
          (initQuery queryId qs d spv vs isPoll isRefetch md (Some linked) st).1
          = Return ()))
  ∧ (∀ queryId qs d spv vs isPoll isRefetch md linked st p,
     st !! queryId = Some p → queryString p ≠ qs →
     initQuery queryId qs d spv vs isPoll isRefetch md (Some linked) st
     = (Throw (InternalError InternalErrorMessage), st)).
Proof.
  assert (∀ linked upd queryId st r0,
    inherited linked = false →
    let st1 := <[queryId := r0]> st in
    ((propagate (Some linked) upd st1).1 = Throw TypeError
     ↔ linked ≠ queryId ∧ st !! linked = None)
    ∧ (linked ≠ queryId → st !! linked = None →
         propagate (Some linked) upd st1 = (Throw TypeError, st1))
    ∧ (linked = queryId ∨ is_Some (st !! linked) →
         (propagate (Some linked) upd st1).1 = Return ())) as Hprop.
  { intros linked upd queryId st r0 Hi st1. unfold st1. cbn [propagate].
    unfold assign, property.
    destruct (decide (linked = queryId)) as [->|Hne].
    - rewrite lookup_insert_eq. cbn [fst].
      repeat split; first [done | by intros []].
    - rewrite lookup_insert_ne, Hi by done.
      destruct (st !! linked) as [rl|]; cbn [fst];
        repeat split; first [done | by intros [] | by intros [?|[]]]. }
  repeat apply conj.
  - intros queryId result linked st r E Hi.
    rewrite markQueryResult_eq, (property_Some _ _ _ E).
    destruct (Hprop linked (set_networkStatus ready) queryId st
                (resolved result r) Hi) as (Hiff & Hthrow & Hret).
    split; [|split].
    + rewrite Hiff. split; [by intros []|]. intros El. split; [|done].
      intros ->. congruence.
    + intros El. apply Hthrow; [|done]. intros ->. congruence.
    + intros Hl. apply Hret. by right.
  - intros queryId err linked st r E Hi.
    rewrite markQueryError_eq, (property_Some _ _ _ E).
    destruct (Hprop linked (failed err) queryId st (failed err r) Hi)
      as (Hiff & Hthrow & Hret).
    split; [|split].
    + rewrite Hiff. split; [by intros []|]. intros El. split; [|done].
      intros ->. congruence.
    + intros El. apply Hthrow; [|done]. intros ->. congruence.
    + intros Hl. apply Hret. by right.
  - intros queryId qs d spv vs isPoll isRefetch md linked st Hqs Hi.
    rewrite initQuery_eq, queryStringChanged_false by done.
    by apply Hprop.
  - intros queryId qs d spv vs isPoll isRefetch md linked st p E Hne.
    rewrite initQuery_eq, (property_Some _ _ _ E).
    by rewrite (proj2 (queryStringChanged_Own p qs) Hne).
Qed.

(** * Further properties of the methods *)

(** ** [markQueryResultClient] *)


(** ** The record [initQuery] leaves *)

(** X2.  When [initQuery] passes its guard and [fetchMoreForQueryId] is
    not [queryId], the record it leaves for [queryId] has
    [previousVariables] exactly when its status is [setVariables];
    otherwise the status is [poll] when [isPoll], else [refetch] when
    [isRefetch], else [loading]: with both flags set the status is [poll]
    or [setVariables], never [refetch]. *)
Theorem initQuery_status_precedence
    queryId qs d spv vs isPoll isRefetch md fm st :
  passes_guard st queryId qs →
  fm ≠ Some queryId →
  ∃ r,
    (initQuery queryId qs d spv vs isPoll isRefetch md fm st).2 !! queryId
    = Some r
    ∧ (networkStatus r = setVariables ↔ previousVariables r ≠ None)
    ∧ (networkStatus r ≠ setVariables →
         networkStatus r
         = if isPoll then poll else if isRefetch then refetch else loading)
    ∧ (isPoll = true → networkStatus r ≠ refetch)
    ∧ (st !! queryId = None → networkStatus r ≠ setVariables).
Proof.
  intros Hqs Hfm. eexists. split; [by apply initQuery_own|].
  cbn [initialValue networkStatus previousVariables].
  destruct (st !! queryId) as [p|];
    [destruct (variablesChanged isEqual (Some p) spv vs)|];
    cbn [variablesChanged fmap option_fmap option_map];
    destruct isPoll, isRefetch; repeat split; done.
Qed.

(** X3.  When [initQuery] passes its guard and [fetchMoreForQueryId] is
    not [queryId], the record of [queryId] is replaced as a whole: its
    query string, document, variables and metadata are the arguments of
    the call, and it has no [networkError] and no [graphQLErrors],
    whatever the record held before. *)
Theorem initQuery_fresh_record
    queryId qs d spv vs isPoll isRefetch md fm st :
  passes_guard st queryId qs →
  fm ≠ Some queryId →
  ∃ r,
    (initQuery queryId qs d spv vs isPoll isRefetch md fm st).2 !! queryId
    = Some r
    ∧ queryString r = qs ∧ document r = d ∧ variables r = vs
    ∧ metadata r = md
    ∧ networkError r = None ∧ graphQLErrors r = [].
Proof.
  intros Hqs Hfm. eexists. split; [by apply initQuery_own|]. done.
Qed.

(** ** The records a call leaves alone *)

Lemma not_elem_of_targets k queryId fm :
  k ∉ queryId :: option_list fm → k ≠ queryId ∧ fm ≠ Some k.
Proof.
  intros Hk. split.
  - intros ->. apply Hk. left.
  - intros ->. apply Hk. right. left.
Qed.

(** X4.  A call changes no record but those of the identifiers it names:
    its [queryId], its [fetchMoreForQueryId], and for [reset] the
    identifiers of its list. *)
Theorem exec_frame st (c : Call) k :
  k ∉ targets c → exec st c !! k = st !! k.
Proof.
  unfold exec.
  destruct c as [queryId qs d spv vs isPoll isRefetch md fm
                |queryId result fm|queryId err fm|queryId complete
                |queryId|ids]; cbn [call targets].
  - intros [Hk Hfm]%not_elem_of_targets. rewrite initQuery_lookup.
    destruct (queryStringChanged _ _); [done|]. cbn zeta.
    by rewrite bool_decide_eq_false_2, lookup_insert_ne.
  - intros [Hk Hfm]%not_elem_of_targets. rewrite markQueryResult_lookup.
    destruct (property st queryId); [| |done]; cbn zeta;
      by rewrite bool_decide_eq_false_2, lookup_alter_ne.
  - intros [Hk Hfm]%not_elem_of_targets. rewrite markQueryError_lookup.
    destruct (property st queryId); [| |done]; cbn zeta;
      by rewrite bool_decide_eq_false_2, lookup_alter_ne.
  - intros Hk. rewrite markQueryResultClient_lookup.
    rewrite lookup_alter_ne; [done|]. intros ->. apply Hk. left.
  - intros Hk. unfold stopQuery, remove. cbn [snd].
    rewrite lookup_delete_ne; [done|]. intros ->. apply Hk. left.
  - intros Hk. by rewrite reset_lookup, bool_decide_eq_false_2.
Qed.

(** ** The identifiers that are tracked *)

Lemma updated_is_Some (own linked_upd : Value → Value) queryId fm st k :
  is_Some (if bool_decide (fm = Some k)
           then linked_upd <$> alter own queryId st !! k
           else alter own queryId st !! k)
  ↔ is_Some (st !! k).
Proof.
  rewrite lookup_alter.
  case_bool_decide; case_decide; subst; by rewrite ?fmap_is_Some.
Qed.

Lemma exec_is_Some st (c : Call) k :
  (stops k c = false → is_Some (st !! k) → is_Some (exec st c !! k))
  ∧ (initialises k c = false →
       is_Some (exec st c !! k) → is_Some (st !! k)).
Proof.
  unfold exec.
  destruct c as [queryId qs d spv vs isPoll isRefetch md fm
                |queryId result fm|queryId err fm|queryId complete
                |queryId|ids]; cbn [call stops initialises].
  - rewrite initQuery_lookup.
    destruct (queryStringChanged _ _); [done|]. cbn zeta.
    split.
    + intros _ Hs. case_bool_decide; rewrite ?fmap_is_Some, lookup_insert;
        by case_decide.
    + intros Hk%bool_decide_eq_false.
      case_bool_decide; rewrite ?fmap_is_Some, lookup_insert_ne; done.
  - rewrite markQueryResult_lookup.
    destruct (property st queryId); [| |done]; cbn zeta;
      rewrite updated_is_Some; done.
  - rewrite markQueryError_lookup.
    destruct (property st queryId); [| |done]; cbn zeta;
      rewrite updated_is_Some; done.
  - rewrite markQueryResultClient_lookup, lookup_alter.
    case_decide; subst; by rewrite ?fmap_is_Some.
  - unfold stopQuery, remove. cbn [snd]. split.
    + intros Hk%bool_decide_eq_false. by rewrite lookup_delete_ne.
    + intros _. rewrite lookup_delete. by case_decide.
  - rewrite reset_lookup.
    split; intros _; case_bool_decide; by rewrite ?fmap_is_Some.
Qed.

(** X5.  Records are removed by [stopQuery] only and created by
    [initQuery] only: an identifier tracked before a call is tracked after
    it unless the call is its [stopQuery], and an identifier tracked after
    a call was tracked before it unless the call is an [initQuery] for
    it. *)
Theorem exec_tracked st (c : Call) k :
  (stops k c = false → is_Some (st !! k) → is_Some (exec st c !! k))
  ∧ (initialises k c = false →
       is_Some (exec st c !! k) → is_Some (st !! k)).
Proof. apply exec_is_Some. Qed.

(** ** The query string of a tracked identifier *)

Lemma exec_queryString st (c : Call) k r r' :
  st !! k = Some r → exec st c !! k = Some r' →
  queryString r' = queryString r.
Proof.
  intros E. unfold exec.
  destruct c as [queryId qs d spv vs isPoll isRefetch md fm
                |queryId result fm|queryId err fm|queryId complete
                |queryId|ids]; cbn [call].
  - rewrite initQuery_lookup.
    destruct (queryStringChanged _ _) eqn:Hc; [congruence|]. cbn zeta.
    rewrite lookup_insert.
    assert (queryId = k → queryString r = qs) as Hqs.
    { intros ->. rewrite (property_Some _ _ _ E) in Hc.
      by apply queryStringChanged_Own_false. }
    case_bool_decide; case_decide; rewrite ?E; cbn; intros [= <-]; cbn;
      first [done | by symmetry; apply Hqs].
  - rewrite markQueryResult_lookup.
    destruct (property st queryId); [| |congruence]; cbn zeta;
      intros (x & Ex & [(-> & _)|[(-> & _)|[(-> & _)|(-> & _)]]])%updated_lookup;
      cbn; congruence.
  - rewrite markQueryError_lookup.
    destruct (property st queryId); [| |congruence]; cbn zeta;
      intros (x & Ex & [(-> & _)|[(-> & _)|[(-> & _)|(-> & _)]]])%updated_lookup;
      cbn; congruence.
  - rewrite markQueryResultClient_lookup, lookup_alter.
    case_decide; subst; rewrite ?E; cbn; intros [= <-]; cbn; congruence.
  - unfold stopQuery, remove. cbn [snd].
    intros [_ E']%lookup_delete_Some. congruence.
  - rewrite reset_lookup, E. case_bool_decide; cbn; by intros [= <-].
Qed.

(** X6.  The query string of a tracked identifier never changes: after a
    sequence of calls none of which is its [stopQuery], the identifier is
    still tracked and its record has the query string it had before,
    whatever the calls and whether they returned or threw. *)
Theorem run_queryString (cs : list Call) st k r :
  st !! k = Some r →
  forallb (λ c, negb (stops k c)) cs = true →
  ∃ r', run cs st !! k = Some r' ∧ queryString r' = queryString r.
Proof.
  intros E. induction cs as [|c cs IH] using rev_ind.
  - intros _. by exists r.
  - rewrite forallb_app, andb_true_iff. cbn [forallb].
    rewrite andb_true_r, negb_true_iff. intros [Hcs Hc].
    destruct (IH Hcs) as (r1 & E1 & Hq1). rewrite run_snoc.
    destruct (proj1 (exec_is_Some (run cs st) c k) Hc) as [r' E'];
      [by rewrite E1|].
    exists r'. split; [done|].
    rewrite <- Hq1. by eapply exec_queryString.
Qed.

(** ** What the status of a record tells of its fields *)

Lemma coherent_initialValue previousQuery qs d spv vs isPoll isRefetch md :
  coherent (initialValue previousQuery qs d spv vs isPoll isRefetch md).
Proof.
  unfold coherent. cbn [initialValue networkStatus networkError
    graphQLErrors previousVariables].
  destruct previousQuery as [p|];
    [destruct (variablesChanged isEqual (Some p) spv vs)|];
    cbn [fmap option_fmap option_map]; destruct isPoll, isRefetch;
    (split; [|split]); intros; first [done | by eexists | by split].
Qed.

Lemma coherent_set_networkStatus (v : NetworkStatus) r :
  v ∈ [fetchMore; ready; loading] →
  coherent (set_networkStatus v r).
Proof.
  rewrite !elem_of_cons, elem_of_nil. unfold coherent.
  cbn [set_networkStatus networkStatus].
  rewrite !elem_of_cons, elem_of_nil.
  intros [->|[->|[->|[]]]]; repeat split; intros;
    repeat match goal with H : _ ∨ _ |- _ => destruct H end; done.
Qed.

Lemma coherent_failed (err : Error) r : coherent (failed err r).
Proof.
  unfold coherent. cbn [failed set_networkStatus set_networkError
    networkStatus networkError].
  rewrite !elem_of_cons, elem_of_nil.
  repeat split; intros;
    repeat match goal with H : _ ∨ _ |- _ => destruct H end; done.
Qed.

Lemma exec_coherent st (c : Call) :
  (∀ k r, st !! k = Some r → coherent r) →
  ∀ k r, exec st c !! k = Some r → coherent r.
Proof.
  intros Hst k r'. unfold exec.
  destruct c as [queryId qs d spv vs isPoll isRefetch md fm
                |queryId result fm|queryId err fm|queryId complete
                |queryId|ids]; cbn [call].
  - rewrite initQuery_lookup.
    destruct (queryStringChanged _ _); [apply Hst|]. cbn zeta.
    case_bool_decide.
    + intros (x & _ & ->)%fmap_Some.
      apply coherent_set_networkStatus. left.
    + rewrite lookup_insert. case_decide; [|apply Hst].
      intros [= <-]. apply coherent_initialValue.
  - rewrite markQueryResult_lookup.
    destruct (property st queryId); [| |apply Hst]; cbn zeta;
      intros (x & Ex & [(-> & _)|[(-> & _)|[(-> & _)|(-> & _)]]])%updated_lookup;
      first [by eapply Hst | apply coherent_set_networkStatus; right; left].
  - rewrite markQueryError_lookup.
    destruct (property st queryId); [| |apply Hst]; cbn zeta;
      intros (x & Ex & [(-> & _)|[(-> & _)|[(-> & _)|(-> & _)]]])%updated_lookup;
      first [by eapply Hst | apply coherent_failed].
  - rewrite markQueryResultClient_lookup, lookup_alter.
    case_decide; [|apply Hst]. subst.
    intros (r0 & _ & ->)%fmap_Some. apply coherent_set_networkStatus.
    destruct complete; [right; left | right; right; left].
  - unfold stopQuery, remove. cbn [snd].
    intros [_ E]%lookup_delete_Some. by eapply Hst.
  - rewrite reset_lookup. case_bool_decide; [|apply Hst].
    intros (x & _ & ->)%fmap_Some.
    apply coherent_set_networkStatus. right. right. left.
Qed.

(** X7.  After every sequence of calls on the empty store, returned or
    thrown, every record is coherent: in status [error] it has a
    [networkError]; in status [setVariables] it has [previousVariables];
    and in status [setVariables], [poll] or [refetch] it has neither a
    [networkError] nor [graphQLErrors].  Every call keeps a store of
    coherent records so. *)
Theorem run_coherent :
  (∀ (cs : list Call) k r, run cs ∅ !! k = Some r → coherent r)
  ∧ (∀ st (c : Call),
       (∀ k r, st !! k = Some r → coherent r) →
       ∀ k r, exec st c !! k = Some r → coherent r).
Proof.
  split; [|apply exec_coherent].
  induction cs as [|c cs IH] using rev_ind; intros k r.
  - unfold run. cbn [foldl]. by rewrite lookup_empty.
  - rewrite run_snoc. by apply exec_coherent.
Qed.

(** ** Stopping, then initialising again *)

(** X8.  [stopQuery] forgets the record as a whole: for an identifier
    that is not a name the store inherits, an [initQuery] right after its
    [stopQuery], with any query string, does not throw the internal error,
    and the record it leaves has no [previousVariables] and a status
    chosen by the flags alone, also with [storePreviousVariables]. *)
Theorem initQuery_after_stopQuery
    queryId qs d spv vs isPoll isRefetch md fm st :
  inherited queryId = false →
  fm ≠ Some queryId →
  (∀ message,
     (initQuery queryId qs d spv vs isPoll isRefetch md fm
        (stopQuery queryId st).2).1
     ≠ Throw (InternalError message))
  ∧ ∃ r,
      (initQuery queryId qs d spv vs isPoll isRefetch md fm
         (stopQuery queryId st).2).2 !! queryId = Some r
      ∧ queryString r = qs
      ∧ previousVariables r = None
      ∧ networkStatus r
        = if isPoll then poll else if isRefetch then refetch else loading.
Proof.
  intros Hi Hfm. unfold stopQuery, remove. cbn [snd].
  assert (property (delete queryId st) queryId = Undefined) as Hp
    by (apply property_Undefined; [apply lookup_delete_eq | done]).
  split.
  - intros message. rewrite initQuery_eq, Hp.
    apply propagate_not_InternalError.
  - eexists. split.
    { apply initQuery_own; [|done]. unfold passes_guard. by rewrite Hp. }
    rewrite lookup_delete_eq.
    cbn [initialValue variablesChanged queryString previousVariables
           networkStatus].
    by destruct isPoll, isRefetch.
Qed.

(** ** Fetching more of a query *)

Lemma set_networkStatus_same r :
  set_networkStatus (networkStatus r) r = r.
Proof. by destruct r. Qed.

(** X9.  [base] is tracked and [more], another identifier, fetches more
    of it.  [initQuery] for [more] with [fetchMoreForQueryId = base], when
    it passes its guard, returns and changes the status of [base] to
    [fetchMore] and nothing else of it.  [markQueryResult] for [more] then
    returns and gives [base] the status [ready], so that a [base] that was
    [ready] has the record it had; [markQueryError] for [more] instead
    gives [base] the error and the status [error]. *)
Theorem fetchMore_round_trip
    base more qs d spv vs isPoll isRefetch md result (err : Error) st rb :
  st !! base = Some rb →
  more ≠ base →
  passes_guard st more qs →
  ∃ st1,
    initQuery more qs d spv vs isPoll isRefetch md (Some base) st
    = (Return (), st1)
    ∧ st1 !! base = Some (set_networkStatus fetchMore rb)
    ∧ (∃ st2,
         markQueryResult more result (Some base) st1 = (Return (), st2)
         ∧ st2 !! base = Some (set_networkStatus ready rb)
         ∧ (networkStatus rb = ready → st2 !! base = Some rb))
    ∧ (∃ st3,
         markQueryError more err (Some base) st1 = (Return (), st3)
         ∧ st3 !! base = Some (failed err rb)).
Proof.
  intros Eb Hne Hqs.
  rewrite initQuery_eq, queryStringChanged_false by done.
  set (rm := initialValue _ _ _ _ _ _ _ _).
  assert (<[more := rm]> st !! base = Some rb) as Eb1
    by by rewrite lookup_insert_ne.
  rewrite (propagate_Some _ _ _ _ Eb1).
  set (st1 := <[base := _]> _).
  assert (st1 !! more = Some rm) as Em1.
  { unfold st1. by rewrite lookup_insert_ne, lookup_insert_eq. }
  exists st1. split; [done|]. split; [apply lookup_insert_eq|]. split.
  - rewrite markQueryResult_eq, (property_Some _ _ _ Em1).
    assert (<[more := resolved result rm]> st1 !! base
            = Some (set_networkStatus fetchMore rb)) as Eb2.
    { rewrite lookup_insert_ne by done. apply lookup_insert_eq. }
    rewrite (propagate_Some _ _ _ _ Eb2). eexists. split; [done|].
    rewrite lookup_insert_eq. split; [done|].
    intros Hs. f_equal. rewrite <- (set_networkStatus_same rb) at 2.
    by rewrite Hs.
  - rewrite markQueryError_eq, (property_Some _ _ _ Em1).
    assert (<[more := failed err rm]> st1 !! base
            = Some (set_networkStatus fetchMore rb)) as Eb2.
    { rewrite lookup_insert_ne by done. apply lookup_insert_eq. }
    rewrite (propagate_Some _ _ _ _ Eb2). eexists. split; [done|].
    by rewrite lookup_insert_eq.
Qed.

(** ** [reset] as a function of the set of identifiers *)

Lemma reset_store_eq (ids : list string) st st' :
  (∀ k, st' !! k
        = if bool_decide (k ∈ ids)
          then set_networkStatus loading <$> st !! k
          else st !! k) →
  reset ids st = (Return (), st').
Proof.
  intros Hst'. destruct (reset_eq ids st) as (st'' & -> & Hst'').
  f_equal. apply map_eq. intros k. by rewrite Hst', Hst''.
Qed.

(** X10.  [reset] depends on its list as a set: with no identifier it
    leaves the store as it is; two lists with the same members give the
    same store; resetting twice is resetting once; and resetting with one
    list and then with another is resetting with both. *)
Theorem reset_as_set (ids ids' : list string) st :
  reset [] st = (Return (), st)
  ∧ ((∀ k, k ∈ ids ↔ k ∈ ids') → reset ids st = reset ids' st)
  ∧ reset ids (reset ids st).2 = reset ids st
  ∧ reset ids' (reset ids st).2 = reset (ids ++ ids') st.
Proof.
  split; [|split; [|split]].
  - apply reset_store_eq. intros k.
    by rewrite bool_decide_eq_false_2 by apply not_elem_of_nil.
  - intros Hiff. destruct (reset_eq ids' st) as (st' & -> & Hst').
    apply reset_store_eq. intros k.
    by rewrite Hst', (bool_decide_ext _ _ (Hiff k)).
  - destruct (reset_eq ids st) as (st' & E & Hst'). rewrite E. cbn [snd].
    apply reset_store_eq. intros k. rewrite Hst'.
    case_bool_decide; [|done]. by destruct (st !! k).
  - destruct (reset_eq (ids ++ ids') st) as (st'' & -> & Hst'').
    apply reset_store_eq. intros k.
    rewrite reset_lookup, Hst''.
    destruct (decide (k ∈ ids)) as [Hk|Hk], (decide (k ∈ ids')) as [Hk'|Hk'].
    + rewrite !bool_decide_eq_true_2; rewrite ?elem_of_app; auto.
      by destruct (st !! k).
    + rewrite (bool_decide_eq_false_2 _ Hk'), !bool_decide_eq_true_2;
        rewrite ?elem_of_app; auto.
    + rewrite (bool_decide_eq_false_2 _ Hk), !bool_decide_eq_true_2;
        rewrite ?elem_of_app; auto.
    + rewrite !bool_decide_eq_false_2; rewrite ?elem_of_app; tauto.
Qed.

(** ** What [markQueryError] keeps *)

(** X11.  [markQueryError] removes no record and changes nothing of a
    record but its [networkError] and its status: the [previousVariables]
    and the [graphQLErrors] of every record stay as they were, so that a
    record can hold both a [networkError] and [graphQLErrors]. *)
Theorem markQueryError_keeps queryId (err : Error) fm st k r :
  st !! k = Some r →
  ∃ r',
    (markQueryError queryId err fm st).2 !! k = Some r'
    ∧ previousVariables r' = previousVariables r
    ∧ graphQLErrors r' = graphQLErrors r
    ∧ queryString r' = queryString r ∧ document r' = document r
    ∧ variables r' = variables r ∧ metadata r' = metadata r.
Proof.
  intros E. rewrite markQueryError_lookup.
  destruct (property st queryId); [| |by exists r]; cbn zeta;
    rewrite lookup_alter;
    case_bool_decide; case_decide; subst; rewrite ?E; cbn;
    eexists; (split; [done|]); cbn; by simplify_eq.
Qed.

(** ** Settling twice *)

Lemma absent_alter upd st j k : absent (alter upd j st) k = absent st k.
Proof.
  unfold absent, property. rewrite lookup_alter.
  case_decide; subst; by destruct (st !! k).
Qed.

Lemma propagate_eq fm upd st :
  propagate fm upd st
  = match fm with
    | None => (Return (), st)
    | Some linked =>
        if absent st linked then (Throw TypeError, st)
        else (Return (), alter upd linked st)
    end.
Proof.
  destruct fm as [linked|]; [|done]. cbn [propagate].
  rewrite assign_eq. unfold absent. by destruct (property st linked).
Qed.

(** A method that returns at once on [undefined] and otherwise updates
    the record of [queryId] and then the record [fm] names. *)
Lemma settle_idempotent (own linked_upd : Value → Value) queryId fm :
  (∀ x, own (own x) = own x) →
  (∀ x, linked_upd (linked_upd x) = linked_upd x) →
  (∀ x, linked_upd (own (linked_upd (own x))) = linked_upd (own x)) →
  ∀ (m : Store → Completion () * Store) st,
    (∀ st', m st'
            = if absent st' queryId then (Return (), st')
              else propagate fm linked_upd (alter own queryId st')) →
    m (m st).2 = m st.
Proof.
  intros Hown Hlinked Hboth m st Hm.
  assert (∀ st', alter own queryId (alter own queryId st')
                 = alter own queryId st') as Hidem.
  { intros st'. rewrite alter_alter_eq. apply alter_ext.
    intros x _. apply Hown. }
  rewrite (Hm st). destruct (absent st queryId) eqn:Ha.
  { cbn [snd]. by rewrite Hm, Ha. }
  rewrite propagate_eq. destruct fm as [linked|]; cbn [snd].
  2:{ by rewrite Hm, absent_alter, Ha, propagate_eq, Hidem. }
  destruct (absent (alter own queryId st) linked) eqn:Hl; cbn [snd].
  - by rewrite Hm, absent_alter, Ha, propagate_eq, Hidem, Hl.
  - rewrite Hm, !absent_alter, Ha, propagate_eq, !absent_alter.
    rewrite absent_alter in Hl. rewrite Hl. f_equal.
    apply map_eq. intros k. rewrite !lookup_alter.
    repeat case_decide; subst; destruct (st !! k); cbn;
      by rewrite ?Hboth, ?Hown, ?Hlinked.
Qed.

Lemma markQueryResult_alter queryId result fm st :
  markQueryResult queryId result fm st
  = if absent st queryId then (Return (), st)
    else propagate fm (set_networkStatus ready)
           (alter (resolved result) queryId st).
Proof.
  rewrite markQueryResult_eq. unfold absent.
  destruct (property st queryId) as [r| |] eqn:Hp; [| |done].
  - by rewrite (alter_Some _ _ _ _ (property_Own_inv _ _ _ Hp)).
  - by rewrite (alter_None _ _ _ (proj1 (property_Inherited_inv _ _ Hp))).
Qed.

Lemma markQueryError_alter queryId (err : Error) fm st :
  markQueryError queryId err fm st
  = if absent st queryId then (Return (), st)
    else propagate fm (failed err) (alter (failed err) queryId st).
Proof.
  rewrite markQueryError_eq. unfold absent.
  destruct (property st queryId) as [r| |] eqn:Hp; [| |done].
  - by rewrite (alter_Some _ _ _ _ (property_Own_inv _ _ _ Hp)).
  - by rewrite (alter_None _ _ _ (proj1 (property_Inherited_inv _ _ Hp))).
Qed.

(** X12.  A callback that arrives twice is harmless: calling
    [markQueryResult], [markQueryError] or [markQueryResultClient] again
    with the same arguments, on the store the first call left, gives the
    completion and the store of the first call. *)
Theorem settle_twice queryId result (err : Error) complete fm st :
  markQueryResult queryId result fm (markQueryResult queryId result fm st).2
  = markQueryResult queryId result fm st
  ∧ markQueryError queryId err fm (markQueryError queryId err fm st).2
    = markQueryError queryId err fm st
  ∧ markQueryResultClient queryId complete
      (markQueryResultClient queryId complete st).2
    = markQueryResultClient queryId complete st.
Proof.
  split; [|split].
  - apply (settle_idempotent (resolved result) (set_networkStatus ready)
             queryId fm); [done..|].
    intros st'. apply markQueryResult_alter.
  - apply (settle_idempotent (failed err) (failed err) queryId fm);
      [done..|].
    intros st'. apply markQueryError_alter.
  - rewrite !markQueryResultClient_eq. cbn [snd]. f_equal.
    rewrite alter_alter_eq. apply alter_ext. by intros x _.
Qed.

(** ** The calls that return *)

Lemma propagate_Return linked upd st :
  inherited linked = false →
  (propagate (Some linked) upd st).1 = Return () ↔ is_Some (st !! linked).
Proof.
  intros Hi. cbn [propagate]. unfold assign, property. rewrite Hi.
  destruct (st !! linked) as [rl|]; cbn [fst]; split; first [done | by intros []].
Qed.


End Properties.

(** * Examples *)

(** ** Re-initialising [q1] with another query string *)

Lemma initQuery_InternalError_iff_witness :
  store1 !! "q1" = Some q1_ready
  ∧ (queryString q1_ready ≠ "query B" ↔
       initQuery_ex "q1" "query B" "B" true x2 true false ()
         (Some "q2") store1
       = (Throw (InternalError InternalErrorMessage), store1)).
Proof.
  split; [vm_compute; reflexivity|].
  apply (initQuery_InternalError_iff Object_prototype isEqual_flat
              "q1" "query B" "B" true x2
           true false () (Some "q2") store1 q1_ready).
  vm_compute; reflexivity.
Defined.

(** ** Changing the variables of [q1] *)

(** C3, counterexample.  [q1] is tracked with status [ready] and variables
    [{x: 1}]; [initQuery] is called for it with [storePreviousVariables]
    and the variables [{x: 2}].  With [fetchMoreForQueryId = "q1"] the call
    returns and leaves [q1] in status [fetchMore]; with another query
    string the call throws and [q1] stays in status [ready]. *)
Lemma initQuery_setVariables_overwritten :
  store1 !! "q1" = Some q1_ready
  ∧ networkStatus q1_ready = ready
  ∧ isEqual_flat (variables q1_ready) x2 = false
  ∧ (∃ r,
       initQuery_ex "q1" "query A" "A" true x2 false false ()
         (Some "q1") store1
       = (Return (), <["q1" := r]> store1)
       ∧ previousVariables r = Some x1
       ∧ networkStatus r = fetchMore)
  ∧ initQuery_ex "q1" "query B" "B" true x2 false false () None
      store1
    = (Throw (InternalError InternalErrorMessage), store1).
Proof.
  split; [vm_compute; reflexivity|].
  split; [reflexivity|]. split; [vm_compute; reflexivity|].
  split; [|vm_compute; reflexivity].
  eexists. split; [vm_compute; reflexivity|]. split; reflexivity.
Defined.

Lemma initQuery_setVariables_iff_witness :
  ∃ r,
    (initQuery_ex "q1" "query A" "A" true x2 false false () None
       store1).2 !! "q1" = Some r
    ∧ networkStatus r = setVariables
    ∧ previousVariables r = Some x1.
Proof.
  destruct (initQuery_setVariables_iff Object_prototype isEqual_flat
              "q1" "query A" "A" true x2
              false false () None store1)
    as [_ Hset].
  destruct Hset as (r & E & Hiff & Hprev);
    [vm_compute; reflexivity | discriminate |].
  exists r. split; [exact E|].
  {
    assert (networkStatus r = setVariables) as Hs.
    { apply Hiff. split; [reflexivity|]. exists q1_ready.
      split; [vm_compute; reflexivity|]. split; [discriminate|].
      vm_compute; reflexivity. }
    split; [exact Hs|].
    destruct (Hprev Hs) as (p & Ep & ->).
    vm_compute in Ep. injection Ep as <-. reflexivity. }
Defined.

(** ** The linked record *)

(** C4, counterexample.  [q1] and [q2] are tracked, [q2] with status
    [ready].  [initQuery] for [q1] with another query string and
    [fetchMoreForQueryId = "q2"] throws at its guard, and [q2] is still in
    status [ready] after the call. *)
Lemma initQuery_guard_before_linked :
  store12 !! "q2" = Some q2_ready
  ∧ initQuery_ex "q1" "query B" "B" false x1 false false ()
      (Some "q2") store12
    = (Throw (InternalError InternalErrorMessage), store12)
  ∧ ∃ r,
      (initQuery_ex "q1" "query B" "B" false x1 false false ()
         (Some "q2") store12).2 !! "q2" = Some r
      ∧ networkStatus r = ready.
Proof.
  split; [vm_compute; reflexivity|]. split; [vm_compute; reflexivity|].
  exists q2_ready. split; [vm_compute; reflexivity | reflexivity].
Defined.

Lemma initQuery_linked_fetchMore_witness :
  ∃ st' rl',
    initQuery_ex "q1" "query A" "A" false x1 false false ()
      (Some "q2") store12
    = (Return (), st')
    ∧ st' !! "q2" = Some rl'
    ∧ networkStatus rl' = fetchMore.
Proof.
  destruct (initQuery_linked_fetchMore Object_prototype isEqual_flat
              "q1" "query A" "A" false
              x1 false false () "q2" store12 q2_ready)
    as (st' & rl' & E & El & Hs & _).
  - vm_compute; reflexivity.
  - vm_compute; reflexivity.
  - exists st', rl'. split; [exact E|]. split; [exact El | exact Hs].
Defined.

(** C10, counterexample.  On the empty store, [initQuery] for [q1] with
    [fetchMoreForQueryId = "q1"] names no tracked record and returns; and
    on [store1], [initQuery] for [q1] with another query string and the
    untracked [fetchMoreForQueryId = "q9"] throws the internal error of the
    guard, not a [TypeError]. *)
Lemma initQuery_linked_to_itself :
  (∅ : gmap string ExampleValue) !! "q1" = None
  ∧ (∃ (st' : gmap string ExampleValue) r,
       initQuery_ex "q1" "query A" "A" false x1 false false ()
         (Some "q1") ∅
       = (Return (), st')
       ∧ st' !! "q1" = Some r
       ∧ networkStatus r = fetchMore)
  ∧ store1 !! "q9" = None
  ∧ initQuery_ex "q1" "query B" "B" false x1 false false ()
      (Some "q9") store1
    = (Throw (InternalError InternalErrorMessage), store1).
Proof.
  split; [reflexivity|]. split.
  - eexists _, _. split; [vm_compute; reflexivity|].
    split; [vm_compute; reflexivity | reflexivity].
  - split; vm_compute; reflexivity.
Defined.

Lemma linked_update_TypeError_iff_witness :
  markQueryResult_ex "q1" ok_result (Some "q9") store1
  = (Throw TypeError,
     <["q1" := resolved hasErrors_nonempty ok_result q1_ready]> store1)
  ∧ (initQuery_ex "q1" "query A" "A" false x1 false false ()
       (Some "q9") store1).1
    = Throw TypeError.
Proof.
  pose proof (@linked_update_TypeError_iff string (list (string * Z)) string
                string unit Object_prototype isEqual_flat hasErrors_nonempty)
    as (Hresult & _ & Hinit & _).
  split.
  - apply (Hresult "q1" ok_result "q9" store1 q1_ready);
      vm_compute; reflexivity.
  - apply (Hinit "q1" "query A" "A" false x1 false false () "q9" store1).
    + vm_compute; reflexivity.
    + vm_compute; reflexivity.
    + split; [discriminate | vm_compute; reflexivity].
Defined.

(** ** [previousVariables] under another status than [setVariables] *)



(** [markQueryError] leaves [previousVariables] as it finds it: [q1] is in
    status [error] and still has the former variables. *)
Example markQueryError_keeps_previousVariables :
  ∃ r,
    run_ex setVariables_then_error ∅ !! "q1"
    = Some r
    ∧ previousVariables r = Some x1
    ∧ networkStatus r = error.
Proof. eexists. split; [vm_compute; reflexivity|]. by split. Qed.

(** ** Settling, resetting and stopping *)

Lemma markQueryResult_spec_witness :
  ∃ r',
    (markQueryResult_ex "q1" partial_result (Some "q2")
       store12).2 !! "q1" = Some r'
    ∧ graphQLErrors r' = ["e1"; "e2"]
    ∧ networkStatus r' = ready.
Proof.
  destruct (markQueryResult_spec Object_prototype hasErrors_nonempty
              "q1" partial_result
              (Some "q2") store12) as (_ & Hown & _).
  destruct (Hown q1_ready) as (r' & E & _ & Hes & _ & _ & _ & Hs & _);
    [vm_compute; reflexivity|].
  exists r'. split; [exact E|]. split; [|exact Hs].
  apply Hes; reflexivity.
Defined.

Lemma markQueryError_spec_witness :
  ∃ st' rl',
    markQueryError_ex "q1" "offline" (Some "q2") store12 = (Return (), st')
    ∧ st' !! "q2" = Some rl'
    ∧ networkError rl' = Some "offline"
    ∧ networkStatus rl' = error.
Proof.
  destruct (markQueryError_spec Object_prototype
              "q1" "offline" (Some "q2") store12)
    as (_ & _ & Hlinked).
  destruct (Hlinked q1_ready "q2" q2_ready)
    as (st' & rl' & E & El & He & Hs & _);
    [vm_compute; reflexivity | reflexivity | vm_compute; reflexivity |].
  exists st', rl'. split; [exact E|]. split; [exact El|].
  split; [exact He | exact Hs].
Defined.

Lemma reset_spec_witness :
  ∃ st',
    reset_ex ["q1"] store12 = (Return (), st')
    ∧ (∃ r', st' !! "q1" = Some r' ∧ networkStatus r' = loading
             ∧ variables r' = x1)
    ∧ st' !! "q2" = Some q2_ready.
Proof.
  destruct (reset_spec Object_prototype
              ["q1"] store12) as (st' & E & Hin & Hout & _).
  exists st'. split; [exact E|]. split.
  - destruct (Hin "q1" q1_ready) as (r' & Er' & Hs & _ & _ & Hv & _);
      [vm_compute; reflexivity | left |].
    exists r'. split; [exact Er'|]. split; [exact Hs | exact Hv].
  - rewrite Hout; [vm_compute; reflexivity|].
    intros H. apply list_elem_of_singleton in H. discriminate H.
Defined.

Lemma stopQuery_spec_witness :
  (stopQuery "q1" store12).2 !! "q1" = None
  ∧ (stopQuery "q1" store12).2 !! "q2" = Some q2_ready
  ∧ stopQuery "q9" store12 = (Return (), store12)
  ∧ get_ex (stopQuery "q1" store12).2 "q1" = Undefined.
Proof.
  destruct (stopQuery_spec Object_prototype isEqual_flat hasErrors_nonempty
              "q1" store12) as (_ & Hgone & Hother & _ & _ & _ & Hget).
  split; [exact Hgone|]. split; [|split].
  - rewrite Hother; [vm_compute; reflexivity | discriminate].
  - destruct (stopQuery_spec Object_prototype isEqual_flat hasErrors_nonempty
                "q9" store12) as (_ & _ & _ & Hid & _).
    apply Hid. vm_compute; reflexivity.
  - apply Hget. vm_compute; reflexivity.
Defined.

(** ** A name of [Object.prototype] as identifier *)

Lemma markQueryResult_inherited_witness :
  store1_failed !! "constructor" = None
  ∧ networkStatus q1_failed = error
  ∧ markQueryResult_ex "constructor"
      ok_result (Some "q1") store1_failed
    = (Return (), <["q1" := set_networkStatus ready q1_failed]> store1_failed).
Proof.
  split; [vm_compute; reflexivity|]. split; [reflexivity|].
  apply (markQueryResult_inherited Object_prototype hasErrors_nonempty
           "constructor" ok_result "q1" store1_failed q1_failed);
    vm_compute; reflexivity.
Defined.

Lemma markQueryError_inherited_witness :
  store12 !! "constructor" = None
  ∧ networkStatus q2_ready = ready
  ∧ markQueryError_ex "constructor" "offline" (Some "q2")
      store12
    = (Return (), <["q2" := failed "offline" q2_ready]> store12).
Proof.
  split; [vm_compute; reflexivity|]. split; [reflexivity|].
  apply (markQueryError_inherited Object_prototype "constructor" "offline"
           "q2" store12 q2_ready);
    vm_compute; reflexivity.
Defined.

Lemma get_after_stopQuery_witness :
  get_ex (stopQuery "constructor" store12).2 "constructor"
  = Inherited
  ∧ get_ex
      (run_ex
         (setVariables_then_reset ++ [StopQuery "constructor"]) ∅)
      "constructor"
    = Inherited.
Proof.
  destruct (get_after_stopQuery Object_prototype isEqual_flat
              hasErrors_nonempty "constructor" store12) as [Hget _].
  split; [exact Hget|].
  apply (get_after_stopQuery Object_prototype isEqual_flat hasErrors_nonempty
           "constructor" ∅).
  vm_compute; reflexivity.
Defined.

(** On the empty store, [initQuery] for [constructor] throws the internal
    error and tracks nothing. *)
Example initQuery_inherited :
  initQuery_ex "constructor" "query A" "A" false
    x1 false false () None (∅ : gmap string ExampleValue)
  = (Throw (InternalError InternalErrorMessage), ∅).
Proof. vm_compute; reflexivity. Qed.

(** With a name of [Object.prototype] as [fetchMoreForQueryId], the
    assignment to the linked record does not throw: it is made on the
    inherited object, and the store has the record of [q1] settled and
    nothing else. *)
Example markQueryResult_linked_inherited :
  markQueryResult_ex "q1" ok_result
    (Some "toString") store1
  = (Return (), store1).
Proof. vm_compute; reflexivity. Qed.


Lemma fetchMore_only_by_linked_initQuery_witness :
  (∃ r,
     run_ex fetchMore_of_q1 ∅ !! "q1" = Some r
     ∧ networkStatus r = fetchMore)
  ∧ ∃ c, c ∈ fetchMore_of_q1 ∧ initQuery_linking "q1" c = true.
Proof.
  assert (∃ r,
     run_ex fetchMore_of_q1 ∅ !! "q1" = Some r
     ∧ networkStatus r = fetchMore) as Hr.
  { eexists. split; [vm_compute; reflexivity | reflexivity]. }
  split; [exact Hr|]. destruct Hr as (r & E & Hs).
  pose proof (@fetchMore_only_by_linked_initQuery string (list (string * Z))
                string string unit
                Object_prototype isEqual_flat hasErrors_nonempty)
    as (_ & _ & Hrun).
  exact (Hrun fetchMore_of_q1 "q1" r E Hs).
Defined.

(** The scenario of the specification: [q1] is fetched with [{x: 1}] and
    settled; re-initialised with [storePreviousVariables] and [{x: 2}] it
    is in status [setVariables] with [{x: 1}] as [previousVariables]; once
    settled again it is [ready] and has no [previousVariables]. *)
Example setVariables_scenario :
  let fetched : list ExampleCall :=
    [ InitQuery "q1" "query A" "A" false x1 false false () None;
      MarkQueryResult "q1" ok_result None ] in
  let changed : list ExampleCall :=
    fetched ++ [ InitQuery "q1" "query A" "A" true x2 false false () None ] in
  let settled : list ExampleCall :=
    changed ++ [ MarkQueryResult "q1" ok_result None ] in
  let status cs :=
    networkStatus <$> run_ex cs ∅ !! "q1" in
  let previous cs :=
    previousVariables <$> run_ex cs ∅ !! "q1" in
  status fetched = Some ready
  ∧ status changed = Some setVariables
  ∧ previous changed = Some (Some x1)
  ∧ status settled = Some ready
  ∧ previous settled = Some None.
Proof. vm_compute. repeat split. Qed.

(** ** Further examples *)

Lemma initQuery_status_precedence_witness :
  ∃ r,
    (initQuery_ex "q5" "query C" "C" true x1 true true () None
       store1).2 !! "q5" = Some r
    ∧ networkStatus r = poll
    ∧ previousVariables r = None.
Proof.
  destruct (initQuery_status_precedence Object_prototype isEqual_flat
              "q5" "query C" "C" true
              x1 true true () None store1)
    as (r & E & Hprev & Hflags & _ & Hnew).
  - vm_compute. exact I.
  - discriminate.
  - assert (networkStatus r ≠ setVariables) as Hs
      by (apply Hnew; vm_compute; reflexivity).
    exists r. split; [exact E|]. split; [exact (Hflags Hs)|].
    destruct (previousVariables r) eqn:Ep; [|reflexivity].
    destruct Hs. apply Hprev. discriminate.
Defined.

Lemma initQuery_fresh_record_witness :
  ∃ r,
    (initQuery_ex "q1" "query A" "A" false x2 false true () None
       store1_failed).2 !! "q1" = Some r
    ∧ networkError r = None
    ∧ graphQLErrors r = [].
Proof.
  destruct (initQuery_fresh_record Object_prototype isEqual_flat
              "q1" "query A" "A" false x2
              false true () None store1_failed)
    as (r & E & _ & _ & _ & _ & Hn & Hg).
  - vm_compute; reflexivity.
  - discriminate.
  - exists r. split; [exact E|]. split; [exact Hn | exact Hg].
Defined.

Lemma exec_frame_witness :
  exec_ex store12
    (MarkQueryError "q1" "offline" None) !! "q2"
  = Some q2_ready.
Proof.
  rewrite (exec_frame Object_prototype isEqual_flat hasErrors_nonempty store12
             (MarkQueryError "q1" "offline" None) "q2").
  - vm_compute; reflexivity.
  - intros H. apply list_elem_of_singleton in H. discriminate H.
Defined.

Lemma run_queryString_witness :
  ∃ r',
    run_ex setVariables_then_error store1
      !! "q1" = Some r'
    ∧ queryString r' = "query A".
Proof.
  apply (run_queryString Object_prototype isEqual_flat hasErrors_nonempty
           setVariables_then_error store1 "q1" q1_ready);
    vm_compute; reflexivity.
Defined.

Lemma run_coherent_witness :
  ∃ r,
    run_ex setVariables_then_error ∅ !! "q1"
    = Some r
    ∧ networkStatus r = error
    ∧ is_Some (networkError r).
Proof.
  assert (∃ r,
    run_ex setVariables_then_error ∅ !! "q1"
    = Some r ∧ networkStatus r = error) as (r & E & Hs).
  { eexists. split; [vm_compute; reflexivity | reflexivity]. }
  exists r. split; [exact E|]. split; [exact Hs|].
  pose proof (@run_coherent string (list (string * Z)) string string unit
                Object_prototype isEqual_flat hasErrors_nonempty) as [Hrun _].
  exact (proj1 (Hrun setVariables_then_error "q1" r E) Hs).
Defined.

Lemma initQuery_after_stopQuery_witness :
  ∃ r,
    (initQuery_ex "q1" "query B" "B" true x2 false false () None
       (stopQuery "q1" store1).2).2 !! "q1" = Some r
    ∧ queryString r = "query B"
    ∧ previousVariables r = None
    ∧ networkStatus r = loading.
Proof.
  destruct (initQuery_after_stopQuery Object_prototype isEqual_flat
              "q1" "query B" "B" true x2
              false false () None store1)
    as (_ & r & E & Hq & Hp & Hs);
    [vm_compute; reflexivity | discriminate |].
  exists r. split; [exact E|]. split; [exact Hq|].
  split; [exact Hp | exact Hs].
Defined.

Lemma fetchMore_round_trip_witness :
  ∃ st1 st2,
    initQuery_ex "q3" "query A" "A" false x2 false false ()
      (Some "q1") store1
    = (Return (), st1)
    ∧ st1 !! "q1" = Some (set_networkStatus fetchMore q1_ready)
    ∧ markQueryResult_ex "q3" ok_result (Some "q1") st1
      = (Return (), st2)
    ∧ st2 !! "q1" = Some q1_ready.
Proof.
  destruct (fetchMore_round_trip Object_prototype isEqual_flat hasErrors_nonempty
              "q1" "q3"
              "query A" "A" false x2 false false () ok_result "offline"
              store1 q1_ready)
    as (st1 & E1 & Eb1 & (st2 & E2 & _ & Eb2) & _).
  - vm_compute; reflexivity.
  - discriminate.
  - vm_compute. exact I.
  - exists st1, st2. split; [exact E1|]. split; [exact Eb1|].
    split; [exact E2|]. apply Eb2. reflexivity.
Defined.

Lemma markQueryError_keeps_witness :
  ∃ r',
    (markQueryError_ex "q1" "timeout" None store1_failed).2 !! "q1" = Some r'
    ∧ previousVariables r' = Some x1
    ∧ graphQLErrors r' = ["e1"].
Proof.
  destruct (markQueryError_keeps Object_prototype
              "q1" "timeout" None store1_failed "q1"
              q1_failed)
    as (r' & E & Hp & Hg & _); [vm_compute; reflexivity|].
  exists r'. split; [exact E|]. split; [exact Hp | exact Hg].
Defined.

